(** * Navigation-menu primitives of django-cms: [menus/base.py] and
    [menus/utils.py].

    The development embeds the two Python modules shallowly.  Python objects
    that are shared by reference (navigation nodes, linked through their
    [children] lists and [parent] back-references) live in a finite store
    indexed by object identity; code that may raise returns a [result]; the
    language changer, which keeps a cache on [self] and calls into the host
    framework, runs in a small state-and-exception monad that also records
    which framework calls were made. *)

From stdpp Require Import gmap strings list relations sets.

Set Warnings "-register-all".


(** ** Python values and exceptions *)

(** The values that the attribute bag of a node holds. *)
Inductive pyval :=
  | PyNone
  | PyBool (b : bool)
  | PyInt (z : Z)
  | PyStr (s : string).

(** Python truthiness, [bool(v)]. *)
Definition truthy (v : pyval) : bool :=
  match v with
  | PyNone => false
  | PyBool b => b
  | PyInt z => negb (Z.eqb z 0)
  | PyStr s => negb (String.eqb s "")
  end.

(** The exceptions that occur in the two modules.  [OtherError] stands for
    any exception that is none of the three named ones. *)
Inductive exn :=
  | NotImplementedError
  | DoesNotExist          (* Title.DoesNotExist *)
  | NoReverseMatch
  | OtherError.

Inductive result (A : Type) :=
  | Ok (a : A)
  | Raise (e : exn).
Arguments Ok {A} a.
Arguments Raise {A} e.

(** Object identity of a navigation node. *)
Definition ref := nat.

(** ** menus/base.py *)
Module base.

(** [class NavigationNode]: the instance attributes set by [__init__].  The
    attribute [id] is called [node_id] here. *)
Record NavigationNode := {
  children : list ref;
  parent : option ref;
  namespace : option string;
  title : string;
  url : string;
  node_id : pyval;
  parent_id : pyval;
  parent_namespace : option string;
  visible : bool;
  attr : gmap string pyval
}.

(** [NavigationNode.__init__]; [attr_arg = None] is the default [attr=None].
    A dict is truthy when it is not empty. *)
Definition NavigationNode_init (title_arg url_arg : string) (id_arg : pyval)
    (parent_id_arg : pyval) (parent_namespace_arg : option string)
    (attr_arg : option (gmap string pyval)) (visible_arg : bool)
    : NavigationNode :=
  {| children := [];
     parent := None;
     namespace := None;
     title := title_arg;
     url := url_arg;
     node_id := id_arg;
     parent_id := parent_id_arg;
     parent_namespace := parent_namespace_arg;
     visible := visible_arg;
     attr := match attr_arg with
             | Some d => if bool_decide (d = ∅) then ∅ else d
             | None => ∅
             end |}.

Definition get_menu_title (self : NavigationNode) : string := title self.

Definition get_absolute_url (self : NavigationNode) : string := url self.

(** [self.attr.get(name, None)] *)
Definition get_attribute (self : NavigationNode) (name : string) : pyval :=
  match attr self !! name with
  | Some v => v
  | None => PyNone
  end.

(** The body of [for node in self.children: nodes.append(node);
    nodes.extend(node.get_descendants())], with the recursive call passed
    as [rec]. *)
Fixpoint descendants_loop (rec : ref → option (list ref))
    (cs : list ref) (nodes : list ref) : option (list ref) :=
  match cs with
  | [] => Some nodes
  | node :: cs' =>
      match rec node with
      | Some d => descendants_loop rec cs' ((nodes ++ [node]) ++ d)
      | None => None
      end
  end.

(** [NavigationNode.get_descendants].  The recursion of the source has no
    cycle protection, so the model takes fuel: [None] means that no result
    was reached within [fuel] nested calls (or that a reference dangles,
    which a Python store never has). *)
Fixpoint get_descendants (fuel : nat) (h : gmap ref NavigationNode)
    (self : ref) : option (list ref) :=
  match fuel with
  | 0 => None
  | S fuel' =>
      match h !! self with
      | Some n => descendants_loop (get_descendants fuel' h) (children n) []
      | None => None
      end
  end.

(** The [while parent.parent is not None] loop of [get_ancestors]; one unit
    of fuel per test of the loop condition. *)
Fixpoint ancestors_loop (fuel : nat) (h : gmap ref NavigationNode)
    (parent_var : ref) (nodes : list ref) : option (list ref) :=
  match fuel with
  | 0 => None
  | S fuel' =>
      match h !! parent_var with
      | Some n =>
          match parent n with
          | Some p => ancestors_loop fuel' h p (nodes ++ [p])
          | None => Some nodes
          end
      | None => None
      end
  end.

(** [NavigationNode.get_ancestors] *)
Definition get_ancestors (fuel : nat) (h : gmap ref NavigationNode)
    (self : ref) : option (list ref) :=
  ancestors_loop fuel h self [].

(** [class Menu].  A class is described by its name, its class attribute
    [namespace] and the [get_nodes] it defines, if it defines one; the base
    class defines the raising one below. *)
Record Menu := { menu_namespace : option string }.

Record menu_class (Request : Type) := {
  cls_name : string;
  cls_namespace : option string;
  cls_get_nodes : option (Menu → Request → result (list ref))
}.
Arguments cls_name {Request} _.
Arguments cls_namespace {Request} _.
Arguments cls_get_nodes {Request} _.

(** [Menu.__init__]: [if not self.namespace: self.namespace =
    self.__class__.__name__]; [None] and the empty string are falsy. *)
Definition Menu_init {Request} (cls : menu_class Request) : Menu :=
  {| menu_namespace :=
       match cls_namespace cls with
       | Some ns => if String.eqb ns "" then Some (cls_name cls) else Some ns
       | None => Some (cls_name cls)
       end |}.

(** [Menu.get_nodes] as the base class defines it. *)
Definition Menu_get_nodes {Request} (self : Menu) (request : Request)
    : result (list ref) :=
  Raise NotImplementedError.

(** The base class itself. *)
Definition Menu_class (Request : Type) : menu_class Request :=
  {| cls_name := "Menu"; cls_namespace := None; cls_get_nodes := None |}.

(** Method lookup for [instance.get_nodes(request)]: the override of the
    subclass if there is one, the base implementation otherwise. *)
Definition get_nodes {Request} (cls : menu_class Request) (self : Menu)
    (request : Request) : result (list ref) :=
  match cls_get_nodes cls with
  | Some f => f self request
  | None => Menu_get_nodes self request
  end.

(** The part of the Python store that a modifier can reach through its
    arguments: the node objects and the list objects, one of which is
    passed as [nodes]. *)
Record menu_store := {
  store_nodes : gmap ref NavigationNode;
  store_lists : gmap ref (list ref)
}.

(** [Modifier.modify]: the body is [pass].  [nodes] is the identity of the
    list object passed.  The function returns the value of the call ([None]
    here stands for Python's [None]: no replacement list) and the store
    after it. *)
Definition modify {Request} (request : Request) (nodes : ref)
    (namespace_arg : option string) (root_id : pyval)
    (post_cut breadcrumb : bool) (st : menu_store)
    : option (list ref) * menu_store :=
  (None, st).

End base.

(** ** menus/utils.py *)
Module utils.

(** *** The host framework, as far as the language changer uses it *)

(** The object that [resolve] returns ([ResolverMatch]).  [url_name] is
    [None] for an unnamed pattern.  Positional and keyword arguments are
    strings captured from the path. *)
Record ResolverMatch := {
  url_name : option string;
  namespace : string;
  app_name : option string;
  args : list string;
  kwargs : list (string * string)
}.

(** A CMS page: [page.get_absolute_url(language=l, fallback=f)], which also
    depends on the language that [force_language] has activated (the third
    argument). *)
Record Page := {
  page_get_absolute_url : string → bool → string → result string
}.

(** [request.toolbar.obj]: an object with [get_absolute_url()], which
    depends on the active language. *)
Record ToolbarObject := {
  obj_get_absolute_url : string → result string
}.

Record Toolbar := { obj : option ToolbarObject }.

(** The request object: [current_page = None] also stands for a request
    without that attribute ([getattr(request, 'current_page', None)]);
    [toolbar = None] is a request without the attribute [toolbar]
    ([hasattr]). *)
Record Request := {
  path_info : string;
  current_page : option Page;
  toolbar : option Toolbar
}.

(** Settings, locale utilities and the URL resolver.  [resolve] and
    [reverse] take the active language first. *)
Record Framework := {
  USE_I18N : bool;
  LANGUAGE_CODE : string;
  get_language_from_request : Request → string;
  hide_untranslated : string → bool;
  resolve : string → string → result ResolverMatch;
  reverse : string → option string → list string → list (string * string)
            → option string → result string
}.

(** What a method does to the world outside [self]: the attributes of the
    request it reads and the framework functions it calls. *)
Inductive event :=
  | RequestAttr (name : string)
  | GetLanguageFromRequest
  | Resolve (active path : string)
  | Reverse (active : string) (viewname : option string)
      (rargs : list string) (rkwargs : list (string * string))
      (current_app : option string)
  | PageGetAbsoluteUrl (active language : string) (fallback : bool)
  | ObjGetAbsoluteUrl (active : string)
  | HideUntranslated (lang : string).

(** *** The instance and its monad *)

(** [class DefaultLanguageChanger]: [self._app_path].  [self.request] is a
    reference to the request object, which others may mutate between two
    calls; the methods therefore take the current contents of that object as
    a parameter instead of a copy stored at construction. *)
Record DefaultLanguageChanger := { _app_path : option string }.

(** [DefaultLanguageChanger.__init__] *)
Definition DefaultLanguageChanger_init : DefaultLanguageChanger :=
  {| _app_path := None |}.

(** A method body: from [self] to its outcome, [self] afterwards and the
    events in order.  An exception keeps the state reached and the events
    emitted before it. *)
Definition M (A : Type) : Type :=
  DefaultLanguageChanger → result A * DefaultLanguageChanger * list event.

Definition ret {A} (a : A) : M A := λ self, (Ok a, self, []).

Definition raise {A} (e : exn) : M A := λ self, (Raise e, self, []).

Definition bind {A B} (m : M A) (k : A → M B) : M B :=
  λ self,
    match m self with
    | (Ok a, self', t) =>
        match k a self' with
        | (r, self'', t') => (r, self'', (t ++ t')%list)
        end
    | (Raise e, self', t) => (Raise e, self', t)
    end.

Notation "x <~ m ;; k" := (bind m (λ x, k))
  (at level 100, m at next level, right associativity).
Notation "m ;;; k" := (bind m (λ _, k))
  (at level 100, right associativity).

(** [try: m except ...: handler]: [handler e = None] when no [except] clause
    matches [e], which then propagates. *)
Definition try_except {A} (m : M A) (handler : exn → option (M A)) : M A :=
  λ self,
    match m self with
    | (Ok a, self', t) => (Ok a, self', t)
    | (Raise e, self', t) =>
        match handler e with
        | Some h =>
            match h self' with
            | (r, self'', t') => (r, self'', (t ++ t')%list)
            end
        | None => (Raise e, self', t)
        end
    end.

(** A call into the framework with its outcome. *)
Definition framework_call {A} (ev : event) (outcome : result A) : M A :=
  λ self, (outcome, self, [ev]).

Definition get_cache : M (option string) :=
  λ self, (Ok (_app_path self), self, []).

(** [self._app_path = v] *)
Definition set_app_path (v : string) : M unit :=
  λ _, (Ok tt, {| _app_path := Some v |}, []).

(** [self._app_path] read where the source needs a string: slicing or
    formatting [None] is a [TypeError]. *)
Definition cached_app_path : M string :=
  λ self,
    match _app_path self with
    | Some s => (Ok s, self, [])
    | None => (Raise OtherError, self, [])
    end.

(** [s[n:]] *)
Fixpoint slice_from (n : nat) (s : string) : string :=
  match n, s with
  | 0, _ => s
  | S n', String _ s' => slice_from n' s'
  | S _, EmptyString => EmptyString
  end.

(** [str(x)] for a string or [None]. *)
Definition py_str (o : option string) : string :=
  match o with
  | Some s => s
  | None => "None"
  end.

(** [view.url_name not in ('pages-details-by-slug', 'pages-root')], negated. *)
Definition reserved_url_name (u : option string) : bool :=
  match u with
  | Some s => String.eqb s "pages-details-by-slug" || String.eqb s "pages-root"
  | None => false
  end.

(** The name passed to [reverse]: [view.url_name], prefixed with
    [view.namespace] and a colon when the namespace is not empty. *)
Definition view_name_of (view : ResolverMatch) : option string :=
  if String.eqb (namespace view) "" then url_name view
  else Some (namespace view +:+ ":" +:+ py_str (url_name view)).

(** [static_stringifier(view)]: under Django 1.6 it patches [__unicode__]
    of every argument of the view that is a class object before the body
    and restores it after; it changes how [reverse] turns such arguments
    into text and nothing else.  The arguments modelled here are strings,
    [inspect.isclass] is false for each of them, and the body runs
    unchanged. *)
Definition static_stringifier {A} (view : ResolverMatch) (body : M A) : M A :=
  body.

Section methods.

Variable fw : Framework.
Variable request : Request.

(** [self.request.<name>] *)
Definition request_attr {A} (name : string) (proj : Request → A) : M A :=
  λ self, (Ok (proj request), self, [RequestAttr name]).

(** [get_language_from_request(self.request)] *)
Definition language_from_request : M string :=
  framework_call GetLanguageFromRequest (Ok (get_language_from_request fw request)).

(** [DefaultLanguageChanger.get_page_path] *)
Definition get_page_path (lang : string) : M string :=
  page <~ request_attr "current_page" current_page ;;
  match page with
  | Some page =>
      (* with force_language(lang): *)
      try_except
        (framework_call (PageGetAbsoluteUrl lang lang false)
           (page_get_absolute_url page lang false lang))
        (λ e,
           match e with
           | DoesNotExist | NoReverseMatch =>
               Some (hide <~ framework_call (HideUntranslated lang)
                               (Ok (hide_untranslated fw lang)) ;;
                     if hide && USE_I18N fw
                     then ret ("/" +:+ lang +:+ "/")
                     else framework_call (PageGetAbsoluteUrl lang lang true)
                            (page_get_absolute_url page lang true lang))
           | _ => None
           end)
  | None =>
      if USE_I18N fw then ret ("/" +:+ lang +:+ "/") else ret "/"
  end.

(** The property [DefaultLanguageChanger.app_path].  The nested
    [self.app_path] of the source is evaluated after [self._app_path] was
    assigned [path_info], so it takes the [return self._app_path] path. *)
Definition app_path : M string :=
  c <~ get_cache ;;
  match c with
  | None =>
      p <~ request_attr "path_info" path_info ;;
      set_app_path p ;;;
      language_code <~ (if USE_I18N fw then language_from_request
                        else ret (LANGUAGE_CODE fw)) ;;
      page_path <~ get_page_path language_code ;;
      (if negb (String.eqb page_path "")
       then a <~ cached_app_path ;;
            set_app_path (slice_from (String.length page_path) a)
       else ret tt) ;;;
      cached_app_path
  | Some _ => cached_app_path
  end.

(** The view matched by the request path: [resolve] under the request's
    language, [None] when it raises anything. *)
Definition resolve_view (page_language : string) : M (option ResolverMatch) :=
  try_except
    (path <~ request_attr "path_info" path_info ;;
     v <~ framework_call (Resolve page_language path)
            (resolve fw page_language path) ;;
     ret (Some v))
    (λ _, Some (ret None)).

(** The [if] branch of [__call__]: the URL of the toolbar's object under
    the target language; [None] when the call raises anything. *)
Definition toolbar_strategy (lang : string) (o : ToolbarObject)
    : M (option string) :=
  (* with force_language(lang): *)
  try_except
    (request_attr "toolbar" toolbar ;;;
     u <~ framework_call (ObjGetAbsoluteUrl lang) (obj_get_absolute_url o lang) ;;
     ret (Some u))
    (λ _, Some (ret None)).

(** The [elif] branch of [__call__]: reverse the matched view under the
    target language; [None] on [NoReverseMatch], other exceptions
    propagate. *)
Definition view_strategy (lang : string) (view : ResolverMatch)
    : M (option string) :=
  let view_name := view_name_of view in
  (* with force_language(lang): *)
  static_stringifier view
    (try_except
       (u <~ framework_call
               (Reverse lang view_name (args view) (kwargs view) (app_name view))
               (reverse fw lang view_name (args view) (kwargs view) (app_name view)) ;;
        ret (Some u))
       (λ e, match e with
             | NoReverseMatch => Some (ret None)
             | _ => None
             end)).

(** [hasattr(self.request, 'toolbar') and self.request.toolbar.obj] *)
Definition toolbar_object : M (option ToolbarObject) :=
  has <~ request_attr "toolbar" toolbar ;;
  match has with
  | Some _ =>
      tb <~ request_attr "toolbar" toolbar ;;
      ret (match tb with Some t => obj t | None => None end)
  | None => ret None
  end.

(** [DefaultLanguageChanger.__call__] *)
Definition __call__ (lang : string) : M string :=
  page_language <~ language_from_request ;;
  view <~ resolve_view page_language ;;
  o <~ toolbar_object ;;
  early <~ match o with
           | Some o => toolbar_strategy lang o
           | None =>
               match view with
               | Some v =>
                   if negb (reserved_url_name (url_name v))
                   then view_strategy lang v
                   else ret None
               | None => ret None
               end
           end ;;
  match early with
  | Some u => ret u
  | None =>
      p <~ get_page_path lang ;;
      a <~ app_path ;;
      ret (p +:+ a)
  end.

End methods.

(** *** The language changer kept on the request *)

(** The request object together with the attribute [_language_changer]
    that [set_language_changer] assigns; [None] is a request on which it
    was never assigned.  A changer takes a language and returns a URL or
    raises. *)
Record ChangerRequest := {
  request_fields : Request;
  _language_changer : option (string → result string)
}.

(** [set_language_changer(request, func)]: the assignment
    [request._language_changer = func], as the request after it. *)
Definition set_language_changer (request : ChangerRequest)
    (func : string → result string) : ChangerRequest :=
  {| request_fields := request_fields request;
     _language_changer := Some func |}.

(** A view function: its [__name__], its [__doc__], and its body, which is
    handed the request object and the arguments, may assign attributes of
    the request, and returns a response or raises. *)
Record ViewFunction (Response : Type) := {
  __name__ : string;
  __doc__ : option string;
  view_body : ChangerRequest → list pyval → list (string * pyval)
              → result Response * ChangerRequest
}.
Arguments __name__ {Response} _.
Arguments __doc__ {Response} _.
Arguments view_body {Response} _ _ _ _.

(** [language_changer_decorator(language_changer)(func)]: the function
    [_wrapped], with the name and the docstring of [func]. *)
Definition language_changer_decorator {Response}
    (language_changer : string → result string)
    (func : ViewFunction Response) : ViewFunction Response :=
  {| __name__ := __name__ func;
     __doc__ := __doc__ func;
     view_body := λ request args kwargs,
       view_body func (set_language_changer request language_changer)
         args kwargs |}.

End utils.

(** ** Vocabulary of the specification *)

Import base utils.

(** *** Navigation trees *)

(** [child h p c]: node [c] is listed in the [children] of node [p]. *)
Definition child (h : gmap ref NavigationNode) (p c : ref) : Prop :=
  ∃ n, h !! p = Some n ∧ c ∈ children n.

(** [parent_of h c p]: the [parent] back-reference of [c] is [p]. *)
Definition parent_of (h : gmap ref NavigationNode) (c p : ref) : Prop :=
  ∃ n, h !! c = Some n ∧ parent n = Some p.

(** A node without a parent. *)
Definition is_root (h : gmap ref NavigationNode) (r : ref) : Prop :=
  ∃ n, h !! r = Some n ∧ parent n = None.

(** No reference dangles. *)
Definition children_closed (h : gmap ref NavigationNode) : Prop :=
  ∀ p c, child h p c → is_Some (h !! c).

Definition parents_closed (h : gmap ref NavigationNode) : Prop :=
  ∀ c p, parent_of h c p → is_Some (h !! p).

(** Acyclic: no node reaches itself in one or more steps. *)
Definition acyclic {A} (R : relation A) : Prop := ∀ x, ¬ tc R x x.

(** A finite tree of node identities, and its nodes in depth-first order
    (a node before its subtrees, the subtrees from left to right). *)
Inductive rose := Rose (r : ref) (kids : list rose).

Fixpoint preorder (t : rose) : list ref :=
  match t with
  | Rose r kids => r :: concat (map preorder kids)
  end.

(** [tree_at h r t]: [t] is the subtree rooted at [r] as the [children]
    lists of the store lay it out. *)
Inductive tree_at (h : gmap ref NavigationNode) : ref → rose → Prop :=
  | tree_at_node r n kids :
      h !! r = Some n →
      Forall2 (tree_at h) (children n) kids →
      tree_at h r (Rose r kids).

(** [ancestor_chain h r l]: [l] is [parent of r; parent of that; ...] up
    to and including the first node whose [parent] is unset. *)
Inductive ancestor_chain (h : gmap ref NavigationNode) : ref → list ref → Prop :=
  | chain_root r : is_root h r → ancestor_chain h r []
  | chain_step r p l :
      parent_of h r p → ancestor_chain h p l → ancestor_chain h r (p :: l).

(** A store in which every node other than [r] is a child of [r], once,
    and has no children of its own. *)
Definition single_common_parent (h : gmap ref NavigationNode) (r : ref) : Prop :=
  ∃ n, h !! r = Some n ∧ NoDup (children n) ∧ (r ∉ children n) ∧
       (∀ c, c ∈ children n → is_Some (h !! c)) ∧
       ∀ x nx, h !! x = Some nx → x ≠ r → x ∈ children n ∧ children nx = [].

(** A method returns [v] when every sufficient amount of fuel gives [v]. *)
Definition returns {A} (run : nat → option A) (v : A) : Prop :=
  ∃ fuel0, ∀ fuel, (fuel0 ≤ fuel)%nat → run fuel = Some v.

(** What the depth-first call on one node establishes. *)
Definition descends_to (h : gmap ref NavigationNode) (fuel0 : nat) (c : ref)
    (t : rose) : Prop :=
  tree_at h c t ∧
  (∃ d, preorder t = c :: d ∧
        (∀ fuel, (fuel0 ≤ fuel)%nat → get_descendants fuel h c = Some d) ∧
        ∀ x, x ∈ d ↔ tc (child h) c x) ∧
  ∀ x, x ∈ preorder t ↔ rtc (child h) c x.

(** *** Runs of the language changer *)

(** The three components of a run. *)
Definition outcome {A} (run : result A * DefaultLanguageChanger * list event)
    : result A := run.1.1.
Definition final {A} (run : result A * DefaultLanguageChanger * list event)
    : DefaultLanguageChanger := run.1.2.
Definition events {A} (run : result A * DefaultLanguageChanger * list event)
    : list event := run.2.

(** The calls to [reverse] among the events of a run. *)
Definition is_reverse (ev : event) : bool :=
  match ev with
  | Reverse _ _ _ _ _ => true
  | _ => false
  end.

Definition reversals (tr : list event) : list event := List.filter is_reverse tr.

(** Successive accesses to [app_path], each under the framework state and
    the contents of the request object at that time. *)
Fixpoint accesses (envs : list (Framework * Request))
    (self : DefaultLanguageChanger) : list (result string) :=
  match envs with
  | [] => []
  | (fw, request) :: envs' =>
      outcome (app_path fw request self)
      :: accesses envs' (final (app_path fw request self))
  end.

Section utils_vocabulary.

Variable fw : Framework.
Variable request : Request.

(** The language under which the first access to [app_path] computes the
    page path. *)
Definition current_language : string :=
  if USE_I18N fw then get_language_from_request fw request
  else LANGUAGE_CODE fw.

(** The object of the toolbar, if the request has a toolbar that has one. *)
Definition toolbar_obj : option ToolbarObject :=
  match toolbar request with
  | Some t => obj t
  | None => None
  end.

(** The view that [resolve] matches for the request path under the
    request's language. *)
Definition matched_view : option ResolverMatch :=
  match resolve fw (get_language_from_request fw request) (path_info request) with
  | Ok v => Some v
  | Raise _ => None
  end.

(** What the two branches before the last line of [__call__] come to:
    a URL to return, nothing, or an exception that leaves the call. *)
Definition strategy_outcome (lang : string) : result (option string) :=
  match toolbar_obj with
  | Some o =>
      match obj_get_absolute_url o lang with
      | Ok u => Ok (Some u)
      | Raise _ => Ok None
      end
  | None =>
      match matched_view with
      | Some v =>
          if reserved_url_name (url_name v) then Ok None
          else
            match reverse fw lang (view_name_of v) (args v) (kwargs v)
                    (app_name v) with
            | Ok u => Ok (Some u)
            | Raise NoReverseMatch => Ok None
            | Raise e => Raise e
            end
      | None => Ok None
      end
  end.

End utils_vocabulary.

(** ** Example stores, pages and sites *)

(** A node as the linker leaves it: [children] and [parent] set. *)
Definition linked (cs : list ref) (p : option ref) (n : NavigationNode)
    : NavigationNode :=
  {| children := cs; parent := p; base.namespace := base.namespace n;
     title := title n; url := url n; node_id := node_id n;
     parent_id := parent_id n; parent_namespace := parent_namespace n;
     visible := visible n; attr := attr n |}.

Definition plain_node (t : string) : NavigationNode :=
  NavigationNode_init t ("/" +:+ t +:+ "/") (PyStr t) PyNone None None true.

(** home(0) has the children about(1) and blog(2); about has team(3). *)
Definition example_store : gmap ref NavigationNode :=
  <[0 := linked [1; 2] None (plain_node "home")]>
  (<[1 := linked [3] (Some 0) (plain_node "about")]>
  (<[2 := linked [] (Some 0) (plain_node "blog")]>
  (<[3 := linked [] (Some 1) (plain_node "team")]> ∅))).

(** A store in which the nodes 1, 2 and 3 all have the node 0 as parent. *)
Definition star_store : gmap ref NavigationNode :=
  <[0 := linked [1; 2; 3] None (plain_node "home")]>
  (<[1 := linked [] (Some 0) (plain_node "about")]>
  (<[2 := linked [] (Some 0) (plain_node "blog")]>
  (<[3 := linked [] (Some 0) (plain_node "team")]> ∅))).

(** A node whose bag stores an empty string and a zero. *)
Definition falsy_node : NavigationNode :=
  NavigationNode_init "home" "/" (PyInt 1) PyNone None
    (Some (<["subtitle" := PyStr ""]> (<["level" := PyInt 0]> ∅))) true.

(** A small site: the page "about" has an English title only; with
    [fallback] its URL under another language is built from that title. *)
Definition about_page : Page :=
  {| page_get_absolute_url := λ language fallback active,
       if String.eqb language "en" then Ok ("/" +:+ active +:+ "/about/")
       else if fallback then Ok ("/" +:+ active +:+ "/about/")
       else Raise DoesNotExist |}.

Definition about_request : Request :=
  {| path_info := "/en/about/"; current_page := Some about_page;
     toolbar := None |}.

(** A request for a path below the page "about", served by a view that
    cannot be reversed. *)
Definition about_sub_request : Request :=
  {| path_info := "/en/about/team/"; current_page := Some about_page;
     toolbar := None |}.

(** The request object after it was changed to another path and page. *)
Definition changed_request : Request :=
  {| path_info := "/fr/contact/"; current_page := None; toolbar := None |}.

Definition cms_view : ResolverMatch :=
  {| url_name := Some "pages-details-by-slug"; namespace := "";
     app_name := None; args := []; kwargs := [("slug", "about")] |}.

Definition site (use_i18n hide : bool) : Framework :=
  {| USE_I18N := use_i18n;
     LANGUAGE_CODE := "en";
     get_language_from_request := λ _, "en";
     hide_untranslated := λ _, hide;
     resolve := λ _ path,
       if String.eqb path "/en/about/" then Ok cms_view else Raise OtherError;
     reverse := λ _ _ _ _ _, Raise NoReverseMatch |}.

(** A page that no URL pattern serves: every lookup of its URL ends in
    [NoReverseMatch], with or without fallback. *)
Definition unrouted_page : Page :=
  {| page_get_absolute_url := λ _ _ _, Raise NoReverseMatch |}.

Definition unrouted_request : Request :=
  {| path_info := "/en/about/"; current_page := Some unrouted_page;
     toolbar := None |}.

(** A request served by an application view named [blog:detail]. *)
Definition blog_view : ResolverMatch :=
  {| url_name := Some "detail"; namespace := "blog"; app_name := Some "blog";
     args := ["42"]; kwargs := [] |}.

Definition blog_site : Framework :=
  {| USE_I18N := true;
     LANGUAGE_CODE := "en";
     get_language_from_request := λ _, "en";
     hide_untranslated := λ _, true;
     resolve := λ _ _, Ok blog_view;
     reverse := λ active name a _ _,
       Ok ("/" +:+ active +:+ "/" +:+ py_str name +:+ "/" +:+ String.concat "/" a) |}.

Definition blog_request : Request :=
  {| path_info := "/en/blog/42"; current_page := None;
     toolbar := Some {| obj := None |} |}.

(** ** Further vocabulary: shapes of stores *)

(** The nesting depth of a tree: the depth of recursion that listing it
    takes. *)
Fixpoint height (t : rose) : nat :=
  match t with
  | Rose _ kids => S (foldr Nat.max 0 (map height kids))
  end.

(** Every node is listed as a child by at most one node. *)
Definition unique_parent (h : gmap ref NavigationNode) : Prop :=
  ∀ p1 p2 c, child h p1 c → child h p2 c → p1 = p2.

(** No [children] list names a node twice. *)
Definition children_nodup (h : gmap ref NavigationNode) : Prop :=
  ∀ p n, h !! p = Some n → NoDup (children n).

(** The [parent] back-references and the [children] lists agree. *)
Definition links_agree (h : gmap ref NavigationNode) : Prop :=
  ∀ p c, child h p c ↔ parent_of h c p.

(** A store with a cycle: the nodes 0 and 1 list each other as child and
    as parent; node 2 lists 0 as child; the parent of node 3 is 0. *)
Definition cyclic_store : gmap ref NavigationNode :=
  <[0 := linked [1] (Some 1) (plain_node "a")]>
  (<[1 := linked [0] (Some 0) (plain_node "b")]>
  (<[2 := linked [0] None (plain_node "c")]>
  (<[3 := linked [] (Some 0) (plain_node "d")]> ∅))).

(** A store with one node, as [__init__] leaves it. *)
Definition single_store : gmap ref NavigationNode :=
  <[7 := plain_node "home"]> ∅.

(** A subclass of [Menu] that sets no namespace, and one that sets one. *)
Definition CMSMenu_class : menu_class unit :=
  {| cls_name := "CMSMenu"; cls_namespace := None;
     cls_get_nodes := Some (λ _ _, Ok []) |}.

Definition named_class : menu_class unit :=
  {| cls_name := "ShopMenu"; cls_namespace := Some "shop";
     cls_get_nodes := None |}.

(** A view that answers with the title of a product and leaves the request
    as it is, and a changer for product URLs. *)
Definition product_view : ViewFunction string :=
  {| __name__ := "product_view";
     __doc__ := Some "Shows one product.";
     view_body := λ request _ _, (Ok "product", request) |}.

Definition product_changer (lang : string) : result string :=
  Ok ("/" +:+ lang +:+ "/product/").

Definition bare_request : ChangerRequest :=
  {| request_fields := blog_request; _language_changer := None |}.

(** A request whose toolbar carries an object with a URL per language. *)
Definition edited_object : ToolbarObject :=
  {| obj_get_absolute_url := λ active, Ok ("/" +:+ active +:+ "/post/1/") |}.

Definition toolbar_request : Request :=
  {| path_info := "/en/blog/42"; current_page := Some unrouted_page;
     toolbar := Some {| obj := Some edited_object |} |}.

(** A request outside any page, for a path under the English prefix. *)
Definition plain_request : Request :=
  {| path_info := "/en/search/"; current_page := None; toolbar := None |}.

(** A request outside any page whose toolbar carries an object, for a path
    that an application view serves. *)
Definition toolbar_only_request : Request :=
  {| path_info := "/en/blog/42"; current_page := None;
     toolbar := Some {| obj := Some edited_object |} |}.

(** A request whose current page is "about" while its path lies
    elsewhere. *)
Definition off_page_request : Request :=
  {| path_info := "/en/contact/form/"; current_page := Some about_page;
     toolbar := None |}.

(** ** Facts about menus/base.py *)

Section base_facts.

Implicit Types (h : gmap ref NavigationNode) (r c p x : ref) (l : list ref).

Lemma descendants_loop_mono (rec rec' : ref → option (list ref)) cs nodes l :
  (∀ c d, rec c = Some d → rec' c = Some d) →
  descendants_loop rec cs nodes = Some l →
  descendants_loop rec' cs nodes = Some l.
Proof.
  intros Hrec. revert nodes.
  induction cs as [|c cs IH]; intros nodes; simpl; [done|].
  destruct (rec c) as [d|] eqn:Hc; [|done].
  rewrite (Hrec _ _ Hc). apply IH.
Qed.

Lemma get_descendants_mono fuel fuel' h r l :
  (fuel ≤ fuel')%nat →
  get_descendants fuel h r = Some l → get_descendants fuel' h r = Some l.
Proof.
  revert fuel' r l.
  induction fuel as [|fuel IH]; intros fuel' r l Hle; simpl; [done|].
  destruct fuel' as [|fuel']; [lia|]. simpl.
  destruct (h !! r) as [n|]; [|done].
  apply descendants_loop_mono. intros c d. apply IH. lia.
Qed.

(** The loop appends, child by child, the depth-first listing of the
    child's subtree. *)
Lemma descendants_loop_preorder (rec : ref → option (list ref)) cs kids nodes :
  Forall2 (λ c t, ∃ d, rec c = Some d ∧ preorder t = c :: d) cs kids →
  descendants_loop rec cs nodes = Some (nodes ++ concat (map preorder kids)).
Proof.
  intros H. revert nodes.
  induction H as [|c t cs kids (d & Hd & Hp) _ IH]; intros nodes; simpl.
  - by rewrite app_nil_r.
  - rewrite Hd, IH, Hp. f_equal. by rewrite <-!app_assoc.
Qed.

Lemma tc_child_step h r x :
  tc (child h) r x ↔ ∃ c, child h r c ∧ rtc (child h) c x.
Proof.
  split.
  - intros H. destruct H as [a b Hab|a b d Hab Hbd].
    + exists b. split; [done|apply rtc_refl].
    + exists b. split; [done|by apply tc_rtc].
  - intros (c & Hc & Hr). eapply tc_rtc_r; [by apply tc_once|done].
Qed.

Lemma descends_to_mono h fuel0 fuel1 c t :
  (fuel0 ≤ fuel1)%nat → descends_to h fuel0 c t → descends_to h fuel1 c t.
Proof.
  intros Hle (Ht & (d & Hd & Hrun & Hreach) & Hmem).
  split; [done|]. split; [|done].
  exists d. split; [done|]. split; [|done]. intros fuel Hf. apply Hrun. lia.
Qed.

Lemma descends_to_children h cs :
  (∀ c, c ∈ cs → ∃ t fuel0, descends_to h fuel0 c t) →
  ∃ kids fuel0, Forall2 (descends_to h fuel0) cs kids.
Proof.
  induction cs as [|c cs IH]; intros Hall.
  - exists [], 0. constructor.
  - destruct (Hall c) as (t & f1 & Ht); [left|].
    destruct IH as (kids & f2 & Hkids).
    { intros c' Hc'. apply Hall. by right. }
    exists (t :: kids), (f1 `max` f2). constructor.
    + eapply descends_to_mono; [|done]. lia.
    + eapply Forall2_impl; [done|]. intros c' t' H'.
      eapply descends_to_mono; [|done]. lia.
Qed.

Lemma descends_to_members h fuel0 cs kids x :
  Forall2 (descends_to h fuel0) cs kids →
  x ∈ concat (map preorder kids) ↔ ∃ c, c ∈ cs ∧ rtc (child h) c x.
Proof.
  induction 1 as [|c t cs kids (_ & _ & Hmem) _ IH]; simpl.
  - split; [by intros ?%elem_of_nil|]. by intros (c & ?%elem_of_nil & _).
  - rewrite elem_of_app, IH, Hmem. split.
    + intros [H|(c' & Hc' & H)]; [exists c|exists c']; split; try done;
        [left|by right].
    + intros (c' & [->|Hc']%elem_of_cons & H); [by left|right; by exists c'].
Qed.

Lemma get_descendants_tree h r :
  children_closed h → Acc (flip (child h)) r → is_Some (h !! r) →
  ∃ t fuel0, descends_to h fuel0 r t.
Proof.
  intros Hclosed Hacc. induction Hacc as [r _ IH]. intros [n Hn].
  destruct (descends_to_children h (children n)) as (kids & fuel0 & Hkids).
  { intros c Hc. apply IH; [by exists n|]. apply (Hclosed r). by exists n. }
  exists (Rose r kids), (S fuel0). split; [|split].
  - econstructor; [done|]. eapply Forall2_impl; [done|]. by intros c t [? _].
  - exists (concat (map preorder kids)). split; [done|]. split.
    + intros [|fuel] Hf; [lia|]. simpl. rewrite Hn.
      apply (descendants_loop_preorder _ _ _ []).
      eapply Forall2_impl; [done|].
      intros c t (_ & (d & Hd & Hrun & _) & _). exists d. split; [|done].
      apply Hrun. lia.
    + intros x. rewrite (descends_to_members _ _ _ _ _ Hkids), tc_child_step.
      split.
      * intros (c & Hc & Hx). exists c. split; [by exists n|done].
      * intros (c & (n' & Hn' & Hc) & Hx). exists c. split; [congruence|done].
  - intros x. simpl. rewrite elem_of_cons, (descends_to_members _ _ _ _ _ Hkids).
    split.
    + intros [->|(c & Hc & Hx)]; [apply rtc_refl|].
      eapply rtc_l; [|done]. by exists n.
    + intros Hx. destruct Hx as [|a b d (n' & Hn' & Hb) Hd]; [by left|].
      right. exists b. split; [|done]. congruence.
Qed.

(** In a finite store without dangling references an acyclic [children]
    relation admits no infinite descent. *)
Lemma acyclic_children_sn h r :
  children_closed h → acyclic (child h) → Acc (flip (child h)) r.
Proof.
  intros Hclosed Hacyc. apply tc_finite_sn.
  - intros x. apply Hacyc.
  - exists (elements (dom h)). intros x Hx.
    apply elem_of_elements, elem_of_dom.
    apply tc_child_step in Hx as (c & Hc & Hx).
    apply rtc_inv_r in Hx as [->|(y & _ & Hy)]; by eapply Hclosed.
Qed.

(** Childless children: the loop appends exactly the children. *)
Lemma descendants_loop_leaves (rec : ref → option (list ref)) cs nodes :
  (∀ c, c ∈ cs → rec c = Some []) →
  descendants_loop rec cs nodes = Some (nodes ++ cs).
Proof.
  revert nodes. induction cs as [|c cs IH]; intros nodes Hall; simpl.
  - by rewrite app_nil_r.
  - rewrite Hall by left. rewrite IH by (intros; apply Hall; by right).
    f_equal. by rewrite app_nil_r, <-app_assoc.
Qed.

Lemma single_common_parent_descendants h r n fuel :
  single_common_parent h r → h !! r = Some n → (2 ≤ fuel)%nat →
  get_descendants fuel h r = Some (children n).
Proof.
  intros (n' & Hn' & _ & Hr & Hdom & Hstar) Hn Hfuel.
  assert (n' = n) as -> by congruence.
  destruct fuel as [|[|fuel]]; [lia..|].
  cbn [get_descendants]. rewrite Hn.
  apply (descendants_loop_leaves _ _ []). intros c Hc.
  destruct (Hdom c Hc) as [nc Hnc]. rewrite Hnc.
  destruct (Hstar c nc Hnc) as [_ ->]; [|done].
  intros ->. done.
Qed.

Lemma single_common_parent_count h r n :
  single_common_parent h r → h !! r = Some n →
  length (children n) = size h - 1.
Proof.
  intros (n' & Hn' & Hnodup & Hr & Hdom & Hstar) Hn.
  assert (n' = n) as -> by congruence.
  assert (list_to_set (children n) = dom h ∖ ({[r]} : gset ref)) as Hset.
  { apply set_eq. intros x.
    rewrite elem_of_list_to_set, elem_of_difference, elem_of_dom,
      not_elem_of_singleton.
    split.
    - intros Hx. split; [by apply Hdom|]. by intros ->.
    - intros [[nx Hnx] Hne]. by destruct (Hstar x nx Hnx Hne). }
  rewrite <-(size_list_to_set (C := gset ref)) by done.
  rewrite Hset, size_difference, size_singleton, size_dom; [done|].
  apply singleton_subseteq_l, elem_of_dom. by exists n.
Qed.

(** The parents of a node, nearest first. *)
Lemma ancestors_loop_chain h r :
  parents_closed h → Acc (flip (parent_of h)) r → is_Some (h !! r) →
  ∃ l fuel0, ancestor_chain h r l ∧
    ∀ fuel nodes, (fuel0 ≤ fuel)%nat →
      ancestors_loop fuel h r nodes = Some (nodes ++ l).
Proof.
  intros Hclosed Hacc. induction Hacc as [r _ IH]. intros [n Hn].
  destruct (parent n) as [p|] eqn:Hp.
  - destruct (IH p) as (l & fuel0 & Hl & Hrun).
    { by exists n. } { apply (Hclosed r). by exists n. }
    exists (p :: l), (S fuel0). split.
    + apply chain_step; [by exists n|done].
    + intros [|fuel] nodes Hf; [lia|]. simpl. rewrite Hn, Hp.
      rewrite Hrun by lia. by rewrite <-app_assoc.
  - exists [], 1. split.
    + apply chain_root. by exists n.
    + intros [|fuel] nodes Hf; [lia|]. simpl. by rewrite Hn, Hp, app_nil_r.
Qed.

Lemma acyclic_parents_sn h r :
  parents_closed h → acyclic (parent_of h) → Acc (flip (parent_of h)) r.
Proof.
  intros Hclosed Hacyc. apply tc_finite_sn.
  - intros x. apply Hacyc.
  - exists (elements (dom h)). intros x Hx.
    apply elem_of_elements, elem_of_dom.
    assert (∃ y, parent_of h y x) as [y Hy]; [|by eapply Hclosed].
    clear -Hx. induction Hx; eauto.
Qed.

Lemma ancestor_chain_reach h r l x :
  ancestor_chain h r l → x ∈ l ↔ tc (parent_of h) r x.
Proof.
  induction 1 as [r (n & Hn & Hnone)|r p l Hp _ IH].
  - split; [by intros ?%elem_of_nil|].
    intros H. destruct H as [a b (n' & Hn' & Hb)|a b d (n' & Hn' & Hb) _];
      congruence.
  - rewrite elem_of_cons, IH. split.
    + intros [->|H]; [by apply tc_once|by eapply tc_l].
    + intros H. destruct Hp as (n & Hn & Hp).
      destruct H as [a b (n' & Hn' & Hb)|a b d (n' & Hn' & Hb) Hd].
      * left. congruence.
      * right. congruence.
Qed.

Lemma ancestor_chain_last h r l x :
  ancestor_chain h r l → last l = Some x → is_root h x.
Proof.
  induction 1 as [r Hr|r p l Hp Hl IH]; [done|].
  destruct Hl as [p Hroot|p q l' Hq Hl']; simpl in *.
  - by intros [= <-].
  - done.
Qed.

End base_facts.

(** *** Stores given by a table, for checking the hypotheses by evaluation *)

(** A decidable property of a concrete store, settled by evaluation. *)
Ltac by_table := apply (bool_decide_unpack _); vm_compute; exact I.

Lemma child_map_Forall (h : gmap ref NavigationNode) (P : ref → ref → Prop) :
  map_Forall (λ p n, Forall (P p) (children n)) h →
  ∀ p c, child h p c → P p c.
Proof.
  intros Hall p c (n & Hn & Hc).
  specialize (Hall p n Hn). simpl in Hall.
  rewrite Forall_forall in Hall. by apply Hall.
Qed.

Lemma parent_map_Forall (h : gmap ref NavigationNode) (P : ref → ref → Prop) :
  map_Forall (λ c n, Forall (P c) (option_list (parent n))) h →
  ∀ c p, parent_of h c p → P c p.
Proof.
  intros Hall c p (n & Hn & Hp).
  specialize (Hall c n Hn). simpl in Hall. rewrite Hp in Hall.
  simpl in Hall. by inversion Hall.
Qed.

(** A relation that strictly increases a rank has no cycle. *)
Lemma ranked_acyclic {A} (R : relation A) (rank : A → nat) :
  (∀ x y, R x y → (rank x < rank y)%nat) → acyclic R.
Proof.
  intros Hrank x Hx.
  assert (∀ a b, tc R a b → (rank a < rank b)%nat) as Htc.
  { induction 1 as [a b Hab|a b d Hab _ IH]; [by apply Hrank|].
    specialize (Hrank _ _ Hab). lia. }
  specialize (Htc _ _ Hx). lia.
Qed.

Example get_descendants_example :
  get_descendants 3 example_store 0 = Some [1; 3; 2].
Proof. vm_compute. reflexivity. Qed.

Example get_ancestors_example :
  get_ancestors 3 example_store 3 = Some [1; 0].
Proof. vm_compute. reflexivity. Qed.

Example get_descendants_out_of_fuel :
  get_descendants 2 example_store 0 = None.
Proof. vm_compute. reflexivity. Qed.

Lemma example_store_children_closed : children_closed example_store.
Proof.
  intros p c H. apply elem_of_dom. revert p c H.
  apply (child_map_Forall _ (λ _ c, c ∈ dom example_store)).
  by_table.
Qed.

Lemma example_store_children_acyclic : acyclic (child example_store).
Proof.
  apply (ranked_acyclic _ (λ x, x)).
  apply (child_map_Forall _ (λ p c, p < c)%nat).
  by_table.
Qed.

Lemma example_store_parents_closed : parents_closed example_store.
Proof.
  intros c p H. apply elem_of_dom. revert c p H.
  apply (parent_map_Forall _ (λ _ p, p ∈ dom example_store)).
  by_table.
Qed.

Lemma example_store_parents_acyclic : acyclic (parent_of example_store).
Proof.
  apply (ranked_acyclic _ (λ x, 3 - x)).
  apply (parent_map_Forall _ (λ c p, 3 - c < 3 - p)%nat).
  by_table.
Qed.

Lemma star_store_single_common_parent : single_common_parent star_store 0.
Proof.
  exists (linked [1; 2; 3] None (plain_node "home")).
  split; [done|]. split; [by apply (bool_decide_unpack _)|].
  split; [by apply (bool_decide_unpack _)|]. split.
  - apply Forall_forall. by_table.
  - intros x nx Hx Hne.
    assert (map_Forall (λ x nx, x ≠ 0 → x ∈ [1; 2; 3] ∧ children nx = [])
              star_store) as Hall.
    { by_table. }
    by apply (Hall x nx Hx).
Qed.

Lemma star_store_children_closed : children_closed star_store.
Proof.
  intros p c H. apply elem_of_dom. revert p c H.
  apply (child_map_Forall _ (λ _ c, c ∈ dom star_store)).
  by_table.
Qed.

Lemma star_store_children_acyclic : acyclic (child star_store).
Proof.
  apply (ranked_acyclic _ (λ x, x)).
  apply (child_map_Forall _ (λ p c, p < c)%nat).
  by_table.
Qed.

(** *** The claims about menus/base.py *)

(** C3. In a store whose [children] lists are acyclic (and name only
    existing nodes), [get_descendants] on any node [r] returns a list [l]
    such that [r :: l] is the depth-first listing of the subtree rooted at
    [r]: [l] holds exactly the nodes reachable from [r] through one or more
    [children] steps, and not [r] itself.  When every other node of the
    store has [r] as its single parent, [l] is the list of all other nodes,
    in the order of [r]'s children, and its length is the number of nodes
    minus one. *)
Theorem get_descendants_subtree (h : gmap ref NavigationNode) (r : ref) :
  children_closed h → acyclic (child h) → is_Some (h !! r) →
  ∃ l t,
    returns (λ fuel, get_descendants fuel h r) l ∧
    tree_at h r t ∧ preorder t = r :: l ∧
    (∀ x, x ∈ l ↔ tc (child h) r x) ∧
    (r ∉ l) ∧
    (single_common_parent h r →
       (∀ x, is_Some (h !! x) → x ≠ r → x ∈ l) ∧
       Some l = children <$> h !! r ∧
       length l = size h - 1).
Proof.
  intros Hclosed Hacyc Hr.
  destruct (get_descendants_tree h r Hclosed) as
    (t & fuel0 & Ht & (l & Hl & Hrun & Hreach) & _);
    [by apply acyclic_children_sn|done|].
  exists l, t. split; [by exists fuel0|].
  do 3 (split; [done|]). split.
  { intros Hin%Hreach. by apply (Hacyc r). }
  intros Hstar. destruct Hr as [n Hn].
  assert (l = children n) as ->.
  { pose proof (single_common_parent_descendants h r n (fuel0 `max` 2)
                  Hstar Hn ltac:(lia)) as H1.
    rewrite Hrun in H1 by lia. congruence. }
  split; [|split].
  - intros x [nx Hnx] Hne. destruct Hstar as (n' & Hn' & _ & _ & _ & Hs).
    assert (n' = n) as -> by congruence. by destruct (Hs x nx Hnx Hne).
  - by rewrite Hn.
  - by apply (single_common_parent_count h r).
Qed.

Lemma get_descendants_subtree_witness :
  (∃ l t,
     returns (λ fuel, get_descendants fuel example_store 0) l ∧
     tree_at example_store 0 t ∧ preorder t = 0 :: l ∧
     (∀ x, x ∈ l ↔ tc (child example_store) 0 x) ∧
     (0 ∉ l)) ∧
  (∃ l,
     returns (λ fuel, get_descendants fuel star_store 0) l ∧
     (∀ x, is_Some (star_store !! x) → x ≠ 0 → x ∈ l) ∧
     length l = size star_store - 1).
Proof.
  split.
  - destruct (get_descendants_subtree example_store 0)
      as (l & t & H1 & H2 & H3 & H4 & H5 & _).
    + exact example_store_children_closed.
    + exact example_store_children_acyclic.
    + vm_compute. eauto.
    + exists l, t. auto.
  - destruct (get_descendants_subtree star_store 0)
      as (l & t & H1 & _ & _ & _ & _ & Hstar).
    + exact star_store_children_closed.
    + exact star_store_children_acyclic.
    + vm_compute. eauto.
    + destruct (Hstar star_store_single_common_parent) as (H6 & _ & H7).
      exists l. auto.
Defined.

Example get_descendants_star :
  get_descendants 2 star_store 0 = Some [1; 2; 3] ∧ size star_store = 4.
Proof. split; vm_compute; reflexivity. Qed.

(** C4. In a store whose [parent] back-references are acyclic (and name
    only existing nodes), [get_ancestors] on any node [r] returns the list
    [parent of r; grandparent of r; ...], nearest first: each element is
    the [parent] of the one before it, the last one is a node whose
    [parent] is unset, the elements are exactly the nodes reachable from
    [r] through [parent], and [r] is not among them.  On a node whose
    [parent] is unset the list is empty. *)
Theorem get_ancestors_chain (h : gmap ref NavigationNode) (r : ref) :
  parents_closed h → acyclic (parent_of h) → is_Some (h !! r) →
  ∃ l,
    returns (λ fuel, get_ancestors fuel h r) l ∧
    ancestor_chain h r l ∧
    (∀ x, last l = Some x → is_root h x) ∧
    (∀ x, x ∈ l ↔ tc (parent_of h) r x) ∧
    (r ∉ l) ∧
    (is_root h r → l = []).
Proof.
  intros Hclosed Hacyc Hr.
  destruct (ancestors_loop_chain h r Hclosed) as (l & fuel0 & Hl & Hrun);
    [by apply acyclic_parents_sn|done|].
  exists l. split; [|split; [done|split; [|split; [|split]]]].
  - exists fuel0. intros fuel Hf. unfold get_ancestors. by rewrite Hrun.
  - intros x. by apply (ancestor_chain_last h r).
  - intros x. by apply ancestor_chain_reach.
  - intros Hin. apply (ancestor_chain_reach h r l r Hl) in Hin.
    by apply (Hacyc r).
  - intros (n & Hn & Hnone).
    destruct Hl as [|r p l (n' & Hn' & Hp) _]; [done|congruence].
Qed.

Lemma get_ancestors_chain_witness :
  ∃ l,
    returns (λ fuel, get_ancestors fuel example_store 3) l ∧
    ancestor_chain example_store 3 l ∧
    (∀ x, last l = Some x → is_root example_store x) ∧
    (∀ x, x ∈ l ↔ tc (parent_of example_store) 3 x) ∧
    (3 ∉ l) ∧
    (is_root example_store 3 → l = []).
Proof.
  apply (get_ancestors_chain example_store 3).
  - exact example_store_parents_closed.
  - exact example_store_parents_acyclic.
  - vm_compute. eauto.
Defined.

(** C7. [get_nodes] called on an instance of the base class [Menu] itself
    raises [NotImplementedError], whatever the instance and the request. *)
Theorem Menu_get_nodes_not_implemented (Request : Type) (self : Menu)
    (request : Request) :
  get_nodes (Menu_class Request) self request = Raise NotImplementedError
  ∧ get_nodes (Menu_class Request) (Menu_init (Menu_class Request)) request
    = Raise NotImplementedError.
Proof. split; reflexivity. Qed.

(** C8. [get_attribute name] is [None] when the attribute bag of the node
    has no key [name] and is the stored value when it has one, whatever the
    value, falsy ones included; this holds for every node, and so for one
    just built by [__init__] from an attribute dict. *)
Theorem get_attribute_lookup (self : NavigationNode) (name : string) :
  (attr self !! name = None → get_attribute self name = PyNone) ∧
  (∀ v, attr self !! name = Some v → get_attribute self name = v) ∧
  (∀ t u i pid pns vis d v, d !! name = Some v →
     get_attribute (NavigationNode_init t u i pid pns (Some d) vis) name = v) ∧
  (∀ t u i pid pns vis,
     get_attribute (NavigationNode_init t u i pid pns None vis) name = PyNone).
Proof.
  unfold get_attribute. split; [|split; [|split]].
  - by intros ->.
  - by intros v ->.
  - intros t u i pid pns vis d v Hd. simpl. case_bool_decide as He.
    + subst d. by rewrite lookup_empty in Hd.
    + by rewrite Hd.
  - intros. simpl. by rewrite lookup_empty.
Qed.

Lemma get_attribute_lookup_witness :
  (truthy (PyStr "") = false ∧ get_attribute falsy_node "subtitle" = PyStr "") ∧
  (truthy (PyInt 0) = false ∧ get_attribute falsy_node "level" = PyInt 0) ∧
  get_attribute falsy_node "missing" = PyNone.
Proof.
  split; [|split].
  - split; [reflexivity|].
    apply (proj1 (proj2 (get_attribute_lookup falsy_node "subtitle"))).
    vm_compute. reflexivity.
  - split; [reflexivity|].
    apply (proj1 (proj2 (get_attribute_lookup falsy_node "level"))).
    vm_compute. reflexivity.
  - apply (proj1 (get_attribute_lookup falsy_node "missing")).
    vm_compute. reflexivity.
Defined.

(** C9. [modify] of the base class [Modifier] is a no-op: for all
    arguments it returns [None] (no replacement list) and leaves the store,
    that is the contents of the list object [nodes] and every node, as it
    was. *)
Theorem Modifier_modify_noop (Request : Type) (request : Request)
    (nodes : ref) (namespace_arg : option string) (root_id : pyval)
    (post_cut breadcrumb : bool) (st : menu_store) :
  modify request nodes namespace_arg root_id post_cut breadcrumb st = (None, st)
  ∧ store_lists (modify request nodes namespace_arg root_id post_cut
                   breadcrumb st).2 !! nodes = store_lists st !! nodes
  ∧ ∀ r, store_nodes (modify request nodes namespace_arg root_id post_cut
                        breadcrumb st).2 !! r = store_nodes st !! r.
Proof. split; [|split]; reflexivity. Qed.

(** ** Facts about menus/utils.py *)

Example get_page_path_en :
  outcome (get_page_path (site true true) about_request "en"
             DefaultLanguageChanger_init) = Ok "/en/about/".
Proof. reflexivity. Qed.

Example get_page_path_de_hidden :
  outcome (get_page_path (site true true) about_request "de"
             DefaultLanguageChanger_init) = Ok "/de/".
Proof. reflexivity. Qed.

Example get_page_path_de_shown :
  outcome (get_page_path (site true false) about_request "de"
             DefaultLanguageChanger_init) = Ok "/de/about/".
Proof. reflexivity. Qed.

Example app_path_about :
  app_path (site true true) about_request DefaultLanguageChanger_init
  = (Ok "", {| _app_path := Some "" |},
     [RequestAttr "path_info"; GetLanguageFromRequest;
      RequestAttr "current_page"; PageGetAbsoluteUrl "en" "en" false]).
Proof. reflexivity. Qed.

Example call_about_de :
  outcome (__call__ (site true false) about_request "de"
             DefaultLanguageChanger_init) = Ok "/de/about/".
Proof. reflexivity. Qed.

(** Unfolding a method body down to its case analysis. *)
Ltac unfold_methods :=
  unfold outcome, final, events, __call__, app_path, get_page_path,
    toolbar_object, toolbar_strategy, view_strategy, resolve_view,
    static_stringifier, language_from_request, request_attr,
    framework_call, cached_app_path, set_app_path, get_cache,
    try_except, bind, ret, raise in *;
  simpl in *.

Ltac case_scrutinee :=
  match goal with
  | |- context [match ?x with _ => _ end] =>
      lazymatch x with
      | context [match _ with _ => _ end] => fail
      | _ => destruct x eqn:?
      end
  end; simpl in *.

#[local] Arguments get_page_path : simpl never.
#[local] Arguments app_path : simpl never.

Section utils_facts.

Variable fw : Framework.
Variable request : Request.

Implicit Types (self : DefaultLanguageChanger) (lang : string).

(** [get_page_path] neither reads nor writes [self]. *)
Lemma get_page_path_pure lang self self0 :
  get_page_path fw request lang self
  = (outcome (get_page_path fw request lang self0), self,
     events (get_page_path fw request lang self0)).
Proof. unfold_methods. repeat case_scrutinee; reflexivity. Qed.

(** An access to [app_path] that finds the cache filled returns it and
    touches nothing. *)
Lemma app_path_cached self a :
  _app_path self = Some a → app_path fw request self = (Ok a, self, []).
Proof. intros H. unfold_methods. rewrite H. simpl. by rewrite H. Qed.

(** The first access: the page path of the current language is cut off the
    front of [path_info], by its length. *)
Lemma app_path_first self q :
  _app_path self = None →
  outcome (get_page_path fw request (current_language fw request) self) = Ok q →
  ∃ tr, app_path fw request self
        = (Ok (slice_from (String.length q) (path_info request)),
           {| _app_path := Some (slice_from (String.length q) (path_info request)) |},
           tr).
Proof.
  intros Hnone Hq.
  pose proof (get_page_path_pure (current_language fw request)
                {| _app_path := Some (path_info request) |} self) as Hrun.
  rewrite Hq in Hrun. unfold current_language in Hrun.
  unfold app_path, bind, get_cache, request_attr, set_app_path,
    language_from_request, framework_call, ret, cached_app_path.
  rewrite Hnone.
  destruct (USE_I18N fw); rewrite Hrun;
    (destruct (negb (String.eqb q "")) eqn:Hq0; simpl; [by eexists|]);
    rewrite negb_false_iff, String.eqb_eq in Hq0; subst q; by eexists.
Qed.

Lemma call_outcome lang self :
  outcome (__call__ fw request lang self)
  = match strategy_outcome fw request lang with
    | Ok (Some u) => Ok u
    | Ok None =>
        match outcome (get_page_path fw request lang self) with
        | Ok p =>
            match outcome (app_path fw request self) with
            | Ok a => Ok (p +:+ a)
            | Raise e => Raise e
            end
        | Raise e => Raise e
        end
    | Raise e => Raise e
    end.
Proof.
  unfold strategy_outcome, toolbar_obj, matched_view.
  unfold outcome at 1, __call__, language_from_request, resolve_view,
    toolbar_object, toolbar_strategy, view_strategy, static_stringifier.
  unfold try_except, bind, request_attr, framework_call, ret. simpl.
  destruct (resolve fw _ _) as [v|e0]; simpl;
    (destruct (toolbar request) as [[[o|]]|]; simpl;
     [destruct (obj_get_absolute_url o lang); simpl|..]);
    try (destruct (reserved_url_name (url_name v)); simpl);
    try (destruct (reverse fw lang _ _ _ _) as [u|[]]; simpl);
    try reflexivity.
  all: rewrite (get_page_path_pure lang self self);
    destruct (outcome (get_page_path fw request lang self)); simpl;
    try reflexivity;
    destruct (app_path fw request self) as [[[] ?] ?]; reflexivity.
Qed.

(** A first access during which [get_page_path] raises: the exception
    leaves the property, and [path_info], assigned before the call, stays
    in the cache. *)
Lemma app_path_first_raise self e :
  _app_path self = None →
  outcome (get_page_path fw request (current_language fw request) self) = Raise e →
  ∃ tr, app_path fw request self
        = (Raise e, {| _app_path := Some (path_info request) |}, tr).
Proof.
  intros Hnone Hq.
  pose proof (get_page_path_pure (current_language fw request)
                {| _app_path := Some (path_info request) |} self) as Hrun.
  rewrite Hq in Hrun. unfold current_language in Hrun.
  unfold app_path, bind, get_cache, request_attr, set_app_path,
    language_from_request, framework_call, ret, cached_app_path.
  rewrite Hnone.
  destruct (USE_I18N fw); rewrite Hrun; by eexists.
Qed.

Lemma app_path_first_inv self a :
  _app_path self = None →
  outcome (app_path fw request self) = Ok a →
  ∃ q, outcome (get_page_path fw request (current_language fw request) self) = Ok q ∧
       a = slice_from (String.length q) (path_info request).
Proof.
  intros Hnone Ha.
  destruct (outcome (get_page_path fw request (current_language fw request) self))
    as [q|e] eqn:Hq.
  - exists q. split; [done|].
    destruct (app_path_first self q Hnone Hq) as [tr Hrun].
    rewrite Hrun in Ha. by injection Ha.
  - destruct (app_path_first_raise self e Hnone Hq) as [tr Hrun].
    by rewrite Hrun in Ha.
Qed.

Lemma get_page_path_no_reverse lang self :
  reversals (events (get_page_path fw request lang self)) = [].
Proof. unfold_methods. repeat case_scrutinee; reflexivity. Qed.

Lemma app_path_no_reverse self :
  reversals (events (app_path fw request self)) = [].
Proof. unfold_methods. repeat case_scrutinee; reflexivity. Qed.

Lemma call_reversals lang self :
  (toolbar_obj request) = None →
  reversals (events (__call__ fw request lang self))
  = match (matched_view fw request) with
    | Some v =>
        if reserved_url_name (url_name v) then []
        else [Reverse lang (view_name_of v) (args v) (kwargs v) (app_name v)]
    | None => []
    end.
Proof.
  unfold toolbar_obj, matched_view. intros Hobj.
  unfold events at 1, __call__, language_from_request, resolve_view,
    toolbar_object, toolbar_strategy, view_strategy, static_stringifier.
  unfold try_except, bind, request_attr, framework_call, ret. simpl.
  pose proof (get_page_path_no_reverse lang self) as Hp.
  pose proof (app_path_no_reverse self) as Ha.
  unfold events in *.
  destruct (resolve fw _ _) as [v|e0]; simpl;
    (destruct (toolbar request) as [[[o|]]|]; simpl; [done|..]);
    try (destruct (reserved_url_name (url_name v)); simpl);
    try (destruct (reverse fw lang _ _ _ _) as [u|[]]; simpl);
    try reflexivity.
  all: rewrite (get_page_path_pure lang self self); unfold events;
    destruct (outcome (get_page_path fw request lang self)); simpl;
    [destruct (app_path fw request self) as [[[] ?] ?]; simpl in *|];
    unfold reversals in *; simpl;
    rewrite ?List.filter_app, ?Hp, ?Ha; reflexivity.
Qed.

Lemma reserved_url_name_spec (u : option string) :
  reserved_url_name u
  = bool_decide (u = Some "pages-details-by-slug" ∨ u = Some "pages-root").
Proof.
  symmetry. destruct u as [s|]; unfold reserved_url_name.
  - destruct (String.eqb_spec s "pages-details-by-slug") as [->|H1].
    { apply bool_decide_eq_true_2. by left. }
    destruct (String.eqb_spec s "pages-root") as [->|H2].
    { apply bool_decide_eq_true_2. by right. }
    apply bool_decide_eq_false_2. intros [[=]|[=]]; done.
  - apply bool_decide_eq_false_2. by intros [|].
Qed.

(** Cutting a prefix off by its length removes that prefix. *)
Lemma slice_from_prefix (q s : string) :
  String.prefix q s = true → q +:+ slice_from (String.length q) s = s.
Proof.
  revert s. induction q as [|c q IH]; intros s H;
    destruct s as [|c' s]; simpl in *; try done.
  destruct (Ascii.ascii_dec c c') as [->|]; [|done].
  change (String c' (q +:+ slice_from (String.length q) s) = String c' s).
  f_equal. by apply IH.
Qed.

(** [get_page_path] returns when the lookups it makes raise nothing but
    what its [except] clause names and the lookup inside that clause
    succeeds. *)
Lemma get_page_path_returns lang self :
  (∀ page e, current_page request = Some page →
     page_get_absolute_url page lang false lang = Raise e →
     e = DoesNotExist ∨ e = NoReverseMatch) →
  (∀ page, current_page request = Some page →
     hide_untranslated fw lang && USE_I18N fw = true ∨
     ∃ u, page_get_absolute_url page lang true lang = Ok u) →
  ∃ u, outcome (get_page_path fw request lang self) = Ok u.
Proof.
  intros Hexact Hfallback. unfold_methods.
  destruct (current_page request) as [page|]; simpl.
  - specialize (Hexact page). specialize (Hfallback page eq_refl).
    destruct (page_get_absolute_url page lang false lang) as [u|e]; simpl;
      [by eexists|].
    destruct (Hexact e eq_refl eq_refl) as [->| ->]; simpl;
      (destruct Hfallback as [->|[u ->]]; simpl; [by eexists|]);
      destruct (hide_untranslated fw lang && USE_I18N fw); simpl; by eexists.
  - destruct (USE_I18N fw); simpl; by eexists.
Qed.

(** How [get_page_path] can raise: the exact lookup raises something its
    [except] clause does not name, or it raises what the clause names, the
    language root does not apply, and the lookup with fallback raises. *)
Lemma get_page_path_raises lang self e :
  outcome (get_page_path fw request lang self) = Raise e →
  ∃ page, current_page request = Some page ∧
    ((page_get_absolute_url page lang false lang = Raise e ∧
      e ≠ DoesNotExist ∧ e ≠ NoReverseMatch) ∨
     (hide_untranslated fw lang && USE_I18N fw = false ∧
      page_get_absolute_url page lang true lang = Raise e)).
Proof.
  unfold_methods.
  destruct (current_page request) as [page|]; simpl;
    [|by destruct (USE_I18N fw)].
  intros H. exists page. split; [done|].
  destruct (page_get_absolute_url page lang false lang) as [u|[]];
    simpl in H; try done.
  1, 4: left; injection H as <-; done.
  all: right;
    destruct (hide_untranslated fw lang && USE_I18N fw); simpl in H;
    [done|];
    destruct (page_get_absolute_url page lang true lang); simpl in H;
    [done|]; by injection H as <-.
Qed.

(** [app_path] raises only what [get_page_path] raises during a first
    access. *)
Lemma app_path_raises self e :
  outcome (app_path fw request self) = Raise e →
  outcome (get_page_path fw request (current_language fw request) self)
  = Raise e.
Proof.
  intros H. destruct (_app_path self) as [a|] eqn:Hcache.
  { by rewrite (app_path_cached self a Hcache) in H. }
  destruct (outcome (get_page_path fw request (current_language fw request) self))
    as [q|e'] eqn:Hq.
  - destruct (app_path_first self q Hcache Hq) as [tr Hrun].
    by rewrite Hrun in H.
  - destruct (app_path_first_raise self e' Hcache Hq) as [tr Hrun].
    rewrite Hrun in H. by injection H as <-.
Qed.

End utils_facts.

Example call_blog_de :
  __call__ blog_site blog_request "de" DefaultLanguageChanger_init
  = (Ok "/de/blog:detail/42", DefaultLanguageChanger_init,
     [GetLanguageFromRequest; RequestAttr "path_info";
      Resolve "en" "/en/blog/42"; RequestAttr "toolbar"; RequestAttr "toolbar";
      Reverse "de" (Some "blog:detail") ["42"] [] (Some "blog")]).
Proof. reflexivity. Qed.

(** *** The claims about menus/utils.py *)

(** C1, as the specification words it, fails when [USE_I18N] is off: the
    exact translation is missing and "hide untranslated" is active for the
    language, yet [get_page_path] returns the fallback URL, not the
    language root. *)
Lemma get_page_path_hidden_without_i18n :
  current_page about_request = Some about_page ∧
  page_get_absolute_url about_page "de" false "de" = Raise DoesNotExist ∧
  hide_untranslated (site false true) "de" = true ∧
  outcome (get_page_path (site false true) about_request "de"
             DefaultLanguageChanger_init) = Ok "/de/about/" ∧
  outcome (get_page_path (site false true) about_request "de"
             DefaultLanguageChanger_init) ≠ Ok "/de/".
Proof. repeat split; try reflexivity. intros [=]. Qed.

(** C1, amended.  For a request with a current page: when the page has a
    URL in the target language, [get_page_path lang] returns it; when the
    exact lookup raises [Title.DoesNotExist], "hide untranslated" is active
    for the language and [USE_I18N] is on, it returns the language root
    ["/<lang>/"]. *)
Theorem get_page_path_translated (fw : Framework) (request : Request)
    (self : DefaultLanguageChanger) (lang : string) (page : Page) :
  current_page request = Some page →
  (∀ u, page_get_absolute_url page lang false lang = Ok u →
        outcome (get_page_path fw request lang self) = Ok u) ∧
  (page_get_absolute_url page lang false lang = Raise DoesNotExist →
   hide_untranslated fw lang = true → USE_I18N fw = true →
   outcome (get_page_path fw request lang self) = Ok ("/" +:+ lang +:+ "/")).
Proof.
  intros Hpage. split.
  - intros u Hu. unfold_methods. by rewrite Hpage, Hu.
  - intros Hmissing Hhide Hi18n. unfold_methods.
    by rewrite Hpage, Hmissing, Hhide, Hi18n.
Qed.

Lemma get_page_path_translated_witness :
  outcome (get_page_path (site true true) about_request "en"
             DefaultLanguageChanger_init) = Ok "/en/about/" ∧
  outcome (get_page_path (site true true) about_request "de"
             DefaultLanguageChanger_init) = Ok "/de/".
Proof.
  split.
  - apply (proj1 (get_page_path_translated (site true true) about_request
                    DefaultLanguageChanger_init "en" about_page eq_refl)).
    reflexivity.
  - apply (proj2 (get_page_path_translated (site true true) about_request
                    DefaultLanguageChanger_init "de" about_page eq_refl));
      reflexivity.
Defined.









(** C5, as the specification words it, fails: a request outside any page
    may still carry a toolbar object, and then the call takes the first
    branch and never reverses the matched view, whose [url_name] is not
    one of the two reserved names. *)
Lemma call_skips_reverse_with_toolbar_object :
  current_page toolbar_only_request = None ∧
  matched_view blog_site toolbar_only_request = Some blog_view ∧
  url_name blog_view ≠ Some "pages-details-by-slug" ∧
  url_name blog_view ≠ Some "pages-root" ∧
  reversals (events (__call__ blog_site toolbar_only_request "de"
                       DefaultLanguageChanger_init)) = [].
Proof. repeat split; try reflexivity; intros [=]. Qed.

(** The name that [__call__] passes to [reverse]. *)
Lemma view_name_of_spec (v : ResolverMatch) :
  view_name_of v
  = if bool_decide (utils.namespace v = "") then url_name v
    else Some (utils.namespace v +:+ ":" +:+ default "None" (url_name v)).
Proof.
  unfold view_name_of, py_str.
  destruct (String.eqb_spec (utils.namespace v) "") as [Hns|Hns];
    case_bool_decide; done.
Qed.

(** C5, amended.  For a request whose toolbar has no object (no attribute
    [toolbar], or [toolbar.obj] falsy), whatever its current page, the call
    makes exactly one call to [reverse] when the request path matches a
    view whose [url_name] is neither ['pages-details-by-slug'] nor
    ['pages-root'], and none otherwise.  The call made is under the target
    language and passes the view's [url_name], prefixed with the view's
    namespace and a colon when the namespace is not empty, its [args], its
    [kwargs] and its [app_name]. *)
Theorem call_reverses_matched_view (fw : Framework) (request : Request)
    (self : DefaultLanguageChanger) (lang : string) :
  toolbar_obj request = None →
  reversals (events (__call__ fw request lang self))
  = match matched_view fw request with
    | Some v =>
        if bool_decide (url_name v = Some "pages-details-by-slug"
                        ∨ url_name v = Some "pages-root")
        then []
        else [Reverse lang
                (if bool_decide (utils.namespace v = "") then url_name v
                 else Some (utils.namespace v +:+ ":"
                            +:+ default "None" (url_name v)))
                (args v) (kwargs v) (app_name v)]
    | None => []
    end.
Proof.
  intros Hobj. rewrite (call_reversals fw request lang self Hobj).
  destruct (matched_view fw request) as [v|]; [|done].
  by rewrite reserved_url_name_spec, view_name_of_spec.
Qed.

Lemma call_reverses_matched_view_witness :
  reversals (events (__call__ blog_site blog_request "de"
                       DefaultLanguageChanger_init))
  = [Reverse "de" (Some "blog:detail") ["42"] [] (Some "blog")]
  ∧ reversals (events (__call__ (site true true)
                         {| path_info := "/en/about/";
                            current_page := None; toolbar := None |}
                         "de" DefaultLanguageChanger_init))
    = [].
Proof.
  split.
  - rewrite (call_reverses_matched_view blog_site blog_request
               DefaultLanguageChanger_init "de"); reflexivity.
  - rewrite (call_reverses_matched_view (site true true)); reflexivity.
Defined.

(** C6, as the specification words it, fails in two ways.  The earlier
    strategies yield nothing and yet the call returns nothing: the last
    line raises when [get_page_path] does.  And the residual path is cut
    off [path_info] by length: when [path_info] does not start with the
    page path of the current language, what is cut is not that page
    path. *)
Lemma call_concatenation_fails :
  (strategy_outcome (site true false) unrouted_request "de" = Ok None ∧
   outcome (__call__ (site true false) unrouted_request "de"
              DefaultLanguageChanger_init) = Raise NoReverseMatch) ∧
  (strategy_outcome (site true false) off_page_request "de" = Ok None ∧
   outcome (get_page_path (site true false) off_page_request "en"
              DefaultLanguageChanger_init) = Ok "/en/about/" ∧
   String.prefix "/en/about/" (path_info off_page_request) = false ∧
   outcome (__call__ (site true false) off_page_request "de"
              DefaultLanguageChanger_init) = Ok "/de/about/t/form/").
Proof. repeat split; reflexivity. Qed.

(** C6, amended.  When neither the toolbar object nor the reversal of the
    matched view yields a URL, and [get_page_path lang] and [app_path]
    return, the call returns [get_page_path lang] followed by [app_path].
    On an instance that has not cached it yet, [app_path] is [path_info]
    without its first [len(page_path)] characters, [page_path] being the
    page path under the current language; when [path_info] starts with
    that page path, this is [path_info] with the page path stripped from
    its front. *)
Theorem call_concatenates (fw : Framework) (request : Request)
    (self : DefaultLanguageChanger) (lang p a : string) :
  strategy_outcome fw request lang = Ok None →
  outcome (get_page_path fw request lang self) = Ok p →
  outcome (app_path fw request self) = Ok a →
  outcome (__call__ fw request lang self) = Ok (p +:+ a) ∧
  (_app_path self = None →
   ∃ q, outcome (get_page_path fw request (current_language fw request) self)
          = Ok q ∧
        a = slice_from (String.length q) (path_info request) ∧
        (String.prefix q (path_info request) = true →
         q +:+ a = path_info request)).
Proof.
  intros Hnone Hp Ha. split.
  - by rewrite call_outcome, Hnone, Hp, Ha.
  - intros Hcache.
    destruct (app_path_first_inv fw request self a Hcache Ha) as (q & Hq & ->).
    exists q. split; [done|]. split; [done|]. apply slice_from_prefix.
Qed.

Lemma call_concatenates_witness :
  outcome (__call__ (site true false) about_sub_request "de"
             DefaultLanguageChanger_init) = Ok "/de/about/team/".
Proof.
  apply (call_concatenates (site true false) about_sub_request
           DefaultLanguageChanger_init "de" "/de/about/" "team/");
    reflexivity.
Defined.

(** C10, amended.  On an instance that has not cached [app_path], an access
    during which [get_page_path] returns [q] for the current language returns
    [path_info] without its first [len(q)] characters and stores it in
    [_app_path]; every later access, whatever the request object and the
    framework have become, returns that same string, reads nothing, calls
    nothing and leaves the instance as it is. *)
Theorem app_path_memoized (fw : Framework) (request : Request)
    (self : DefaultLanguageChanger) (q : string) :
  _app_path self = None →
  outcome (get_page_path fw request (current_language fw request) self) = Ok q →
  let a := slice_from (String.length q) (path_info request) in
  let self1 := final (app_path fw request self) in
  outcome (app_path fw request self) = Ok a ∧
  _app_path self1 = Some a ∧
  (∀ fw' request', app_path fw' request' self1 = (Ok a, self1, [])) ∧
  (∀ envs, Forall (λ r, r = Ok a) (accesses envs self1)).
Proof.
  intros Hcache Hq a self1.
  destruct (app_path_first fw request self q Hcache Hq) as [tr Hrun].
  assert (self1 = {| _app_path := Some a |}) as Hself1.
  { unfold self1. by rewrite Hrun. }
  assert (∀ fw' request', app_path fw' request' self1 = (Ok a, self1, []))
    as Hagain.
  { intros fw' request'. apply app_path_cached. by rewrite Hself1. }
  split; [by rewrite Hrun|]. split; [by rewrite Hself1|]. split; [done|].
  intros envs. induction envs as [|[fw' request'] envs IH]; simpl.
  - constructor.
  - rewrite Hagain. constructor; [done|]. exact IH.
Qed.

Lemma app_path_memoized_witness :
  outcome (app_path (site true false) about_sub_request
             DefaultLanguageChanger_init) = Ok "team/" ∧
  app_path (site false true) changed_request
    (final (app_path (site true false) about_sub_request
              DefaultLanguageChanger_init))
  = (Ok "team/", {| _app_path := Some "team/" |}, []) ∧
  Forall (λ r, r = Ok "team/")
    (accesses [(site true false, about_sub_request);
               (site false true, changed_request);
               (blog_site, blog_request)]
       (final (app_path (site true false) about_sub_request
                 DefaultLanguageChanger_init))).
Proof.
  destruct (app_path_memoized (site true false) about_sub_request
              DefaultLanguageChanger_init "/en/about/"
              eq_refl eq_refl) as (H1 & _ & H3 & H4).
  split; [exact H1|]. split; [exact (H3 _ _)|exact (H4 _)].
Defined.

(** C10, as the specification words it, fails: when [get_page_path]
    raises during the first access, that access computes no value, yet
    [path_info], assigned before the call, is already in the cache, and
    the next access returns it whole instead of raising again. *)
Lemma app_path_after_failed_access :
  outcome (app_path (site true false) unrouted_request
             DefaultLanguageChanger_init) = Raise NoReverseMatch ∧
  accesses [(site true false, unrouted_request)]
    (final (app_path (site true false) unrouted_request
              DefaultLanguageChanger_init))
  = [Ok "/en/about/"].
Proof. split; reflexivity. Qed.

(** ** Further facts about menus/base.py *)

Section ancestors_facts.

Variable h : gmap ref NavigationNode.

Implicit Types (r c p x : ref) (l : list ref).

Lemma ancestors_loop_sound fuel r nodes res :
  ancestors_loop fuel h r nodes = Some res →
  ∃ l, res = nodes ++ l ∧ ancestor_chain h r l ∧ (length l < fuel)%nat.
Proof.
  revert r nodes. induction fuel as [|fuel IH]; intros r nodes; simpl; [done|].
  destruct (h !! r) as [n|] eqn:Hn; [|done].
  destruct (parent n) as [p|] eqn:Hp.
  - intros (l & -> & Hl & Hlen)%IH. exists (p :: l). split; [|split].
    + by rewrite <-app_assoc.
    + apply chain_step; [by exists n|done].
    + simpl. lia.
  - intros [= <-]. exists []. split; [by rewrite app_nil_r|]. split.
    + apply chain_root. by exists n.
    + simpl. lia.
Qed.

Lemma ancestors_loop_complete r l :
  ancestor_chain h r l →
  ∀ fuel nodes, (length l < fuel)%nat →
    ancestors_loop fuel h r nodes = Some (nodes ++ l).
Proof.
  induction 1 as [r (n & Hn & Hp)|r p l (n & Hn & Hp) _ IH];
    intros [|fuel] nodes Hlen; simpl in *; try lia; rewrite Hn, Hp.
  - by rewrite app_nil_r.
  - rewrite IH by lia. by rewrite <-app_assoc.
Qed.

(** The chain of ancestors of a node is unique. *)
Lemma ancestor_chain_unique r l1 l2 :
  ancestor_chain h r l1 → ancestor_chain h r l2 → l1 = l2.
Proof.
  intros H1. revert l2.
  induction H1 as [r (n & Hn & Hp)|r p l (n & Hn & Hp) _ IH]; intros l2 H2;
    destruct H2 as [r (n' & Hn' & Hp')|r p' l' (n' & Hn' & Hp') H2];
    try congruence.
  assert (p' = p) as -> by congruence. f_equal. by apply IH.
Qed.

(** Following [parent] steps shortens the chain. *)
Lemma ancestor_chain_rtc r x l :
  ancestor_chain h r l → rtc (parent_of h) r x →
  ∃ l', ancestor_chain h x l' ∧ (length l' ≤ length l)%nat.
Proof.
  intros Hl Hrx. revert l Hl.
  induction Hrx as [r|r p x (n & Hn & Hp) _ IH]; intros l Hl.
  - by exists l.
  - destruct Hl as [r (n' & Hn' & Hp')|r p' l (n' & Hn' & Hp') Hl];
      [congruence|].
    assert (p' = p) as -> by congruence.
    destruct (IH l Hl) as (l' & Hl' & Hlen). exists l'.
    split; [done|]. simpl. lia.
Qed.

Lemma ancestor_chain_tc r x l :
  ancestor_chain h r l → tc (parent_of h) r x →
  ∃ l', ancestor_chain h x l' ∧ (length l' < length l)%nat.
Proof.
  intros Hl Hrx.
  assert (∃ p, parent_of h r p ∧ rtc (parent_of h) p x) as (p & Hp & Hpx).
  { destruct Hrx as [a b Hab|a b d Hab Hbd]; exists b;
      (split; [done|]); [apply rtc_refl|by apply tc_rtc]. }
  destruct Hp as (n & Hn & Hp).
  destruct Hl as [r (n' & Hn' & Hp')|r p' l (n' & Hn' & Hp') Hl];
    [congruence|].
  assert (p' = p) as -> by congruence.
  destruct (ancestor_chain_rtc p x l Hl Hpx) as (l' & Hl' & Hlen).
  exists l'. split; [done|]. simpl. lia.
Qed.

End ancestors_facts.

(** X1. [get_ancestors] returns [l] exactly when [l] is the chain of
    [parent] references from the node up to a node without parent, and the
    loop condition may be tested more often than [l] is long. *)
Theorem get_ancestors_exact (h : gmap ref NavigationNode) (r : ref)
    (l : list ref) (fuel : nat) :
  get_ancestors fuel h r = Some l ↔
  ancestor_chain h r l ∧ (length l < fuel)%nat.
Proof.
  unfold get_ancestors. split.
  - intros (l' & -> & Hl & Hlen)%ancestors_loop_sound. done.
  - intros [Hl Hlen]. by rewrite (ancestors_loop_complete h r l Hl).
Qed.

(** X2. When the [parent] references of a node lead into a cycle,
    [get_ancestors] never returns. *)
Theorem get_ancestors_cycle (h : gmap ref NavigationNode) (r x : ref) :
  rtc (parent_of h) r x → tc (parent_of h) x x →
  ∀ fuel, get_ancestors fuel h r = None.
Proof.
  intros Hrx Hxx fuel. unfold get_ancestors.
  destruct (ancestors_loop fuel h r []) as [res|] eqn:Hrun; [|done].
  apply ancestors_loop_sound in Hrun as (l & _ & Hl & _).
  destruct (ancestor_chain_rtc h r x l Hl Hrx) as (l1 & Hl1 & _).
  destruct (ancestor_chain_tc h x x l1 Hl1 Hxx) as (l2 & Hl2 & Hlen).
  rewrite (ancestor_chain_unique h x l2 l1 Hl2 Hl1) in Hlen. lia.
Qed.

Section descendants_facts.

Variable h : gmap ref NavigationNode.

Implicit Types (r c p x : ref) (l : list ref) (t : rose).

(** Induction over trees, with the hypothesis for every subtree. *)
Lemma rose_forall_ind (P : rose → Prop) :
  (∀ r kids, Forall P kids → P (Rose r kids)) → ∀ t, P t.
Proof.
  intros Hnode. fix IH 1. intros [r kids]. apply Hnode.
  induction kids as [|t kids IHkids]; constructor; [apply IH|apply IHkids].
Qed.

(** What the loop returns, read back from its result. *)
Lemma descendants_loop_inv (rec : ref → option (list ref)) cs nodes res :
  descendants_loop rec cs nodes = Some res →
  ∃ ds, Forall2 (λ c d, rec c = Some d) cs ds ∧
        res = nodes ++ concat (zip_with cons cs ds).
Proof.
  revert nodes. induction cs as [|c cs IH]; intros nodes; simpl.
  - intros [= <-]. exists []. split; [constructor|by rewrite app_nil_r].
  - destruct (rec c) as [d|] eqn:Hc; [|done].
    intros (ds & Hds & ->)%IH. exists (d :: ds). split; [by constructor|].
    simpl. by rewrite <-!app_assoc.
Qed.

Lemma descendants_loop_none (rec : ref → option (list ref)) cs nodes c :
  c ∈ cs → rec c = None → descendants_loop rec cs nodes = None.
Proof.
  intros Hc Hnone. revert nodes.
  induction Hc as [c cs|c c' cs _ IH]; intros nodes; simpl.
  - by rewrite Hnone.
  - destruct (rec c'); [by apply IH|done].
Qed.

Lemma height_kids_bound kids fuel t :
  (foldr Nat.max 0 (map height kids) ≤ fuel)%nat → t ∈ kids →
  (height t ≤ fuel)%nat.
Proof.
  intros Hmax Ht. induction Ht as [t kids|t t' kids _ IH]; simpl in Hmax.
  - lia.
  - apply IH. lia.
Qed.

Lemma tree_at_root r t : tree_at h r t → ∃ kids, t = Rose r kids.
Proof. intros [r' n kids _ _]. by exists kids. Qed.

Lemma get_descendants_sound fuel r l :
  get_descendants fuel h r = Some l →
  ∃ t, tree_at h r t ∧ preorder t = r :: l ∧ (height t ≤ fuel)%nat.
Proof.
  revert r l. induction fuel as [|fuel IH]; intros r l; simpl; [done|].
  destruct (h !! r) as [n|] eqn:Hn; [|done].
  intros (ds & Hds & ->)%descendants_loop_inv. simpl.
  assert (∃ kids, Forall2 (tree_at h) (children n) kids ∧
                  map preorder kids = zip_with cons (children n) ds ∧
                  (foldr Nat.max 0 (map height kids) ≤ fuel)%nat)
    as (kids & Hkids & Hpre & Hheight).
  { clear Hn. induction Hds as [|c d cs ds Hc _ IHds].
    - exists []. split; [constructor|]. split; [done|simpl; lia].
    - destruct (IH c d Hc) as (t & Ht & Hp & Hh).
      destruct IHds as (kids & Hkids & Hpre & Hheight).
      exists (t :: kids). split; [by constructor|]. split.
      + simpl. by rewrite Hp, Hpre.
      + simpl. lia. }
  exists (Rose r kids). split; [by econstructor|]. split.
  - simpl. by rewrite Hpre.
  - simpl. lia.
Qed.

Lemma get_descendants_complete t :
  ∀ r fuel, tree_at h r t → (height t ≤ fuel)%nat →
    get_descendants fuel h r = Some (tail (preorder t)).
Proof.
  induction t as [r' kids IH] using rose_forall_ind. intros r fuel Ht Hfuel.
  inversion Ht as [? n ? Hn Hkids]; subst.
  destruct fuel as [|fuel]; simpl in Hfuel; [lia|].
  simpl. rewrite Hn. apply (descendants_loop_preorder _ _ _ []).
  assert (foldr Nat.max 0 (map height kids) ≤ fuel)%nat as Hmax by lia.
  clear Hn Ht Hfuel.
  induction Hkids as [|c t cs kids Hc _ IHkids]; [constructor|].
  apply Forall_cons in IH as [IHt IH]. constructor.
  - exists (tail (preorder t)). split.
    + apply IHt; [done|]. simpl in Hmax. lia.
    + by destruct (tree_at_root c t Hc) as [? ->].
  - apply IHkids; [done|]. simpl in Hmax. lia.
Qed.

(** Membership in the result is reachability through [children]. *)
Lemma get_descendants_members fuel r l x :
  get_descendants fuel h r = Some l → x ∈ l ↔ tc (child h) r x.
Proof.
  revert r l x. induction fuel as [|fuel IH]; intros r l x; simpl; [done|].
  destruct (h !! r) as [n|] eqn:Hn; [|done].
  intros (ds & Hds & ->)%descendants_loop_inv. simpl.
  assert (x ∈ concat (zip_with cons (children n) ds)
          ↔ ∃ c, c ∈ children n ∧ rtc (child h) c x) as ->.
  { clear Hn. induction Hds as [|c d cs ds Hc _ IHds]; simpl.
    - split; [by intros ?%elem_of_nil|]. by intros (c & ?%elem_of_nil & _).
    - rewrite elem_of_cons, elem_of_app, IHds, (IH c d x Hc). split.
      + intros [->|[Hx|(c' & Hc' & Hx)]].
        * exists c. split; [left|apply rtc_refl].
        * exists c. split; [left|by apply tc_rtc].
        * exists c'. split; [by right|done].
      + intros (c' & [->|Hc']%elem_of_cons & Hx).
        * apply rtc_tc in Hx as [->|Hx]; [by left|right; by left].
        * right. right. by exists c'. }
  rewrite tc_child_step. split.
  - intros (c & Hc & Hx). exists c. split; [by exists n|done].
  - intros (c & (n' & Hn' & Hc) & Hx). exists c. split; [congruence|done].
Qed.

Lemma reaches_cycle_step r x :
  rtc (child h) r x → tc (child h) x x →
  ∃ c, child h r c ∧ rtc (child h) c x.
Proof.
  intros Hrx Hxx. apply rtc_tc in Hrx as [->|Hrx]; by apply tc_child_step.
Qed.

Lemma get_descendants_none_on_cycle fuel r x :
  rtc (child h) r x → tc (child h) x x → get_descendants fuel h r = None.
Proof.
  revert r. induction fuel as [|fuel IH]; intros r Hrx Hxx; simpl; [done|].
  destruct (reaches_cycle_step r x Hrx Hxx) as (c & (n & Hn & Hc) & Hcx).
  rewrite Hn. eapply descendants_loop_none; [done|]. by apply IH.
Qed.

End descendants_facts.

(** X3. [get_descendants] returns [l] exactly when the [children] lists
    lay out a finite tree below the node whose depth-first listing is the
    node followed by [l], and the recursion may nest as deep as that tree
    is high. *)
Theorem get_descendants_exact (h : gmap ref NavigationNode) (r : ref)
    (l : list ref) (fuel : nat) :
  get_descendants fuel h r = Some l ↔
  ∃ t, tree_at h r t ∧ preorder t = r :: l ∧ (height t ≤ fuel)%nat.
Proof.
  split; [apply get_descendants_sound|].
  intros (t & Ht & Hl & Hfuel).
  rewrite (get_descendants_complete h t r fuel Ht Hfuel). by rewrite Hl.
Qed.

(** X4. When the [children] lists below a node contain a cycle,
    [get_descendants] on it never returns: there is no cycle protection. *)
Theorem get_descendants_cycle (h : gmap ref NavigationNode) (r x : ref) :
  rtc (child h) r x → tc (child h) x x →
  ∀ fuel, get_descendants fuel h r = None.
Proof. intros Hrx Hxx fuel. by apply (get_descendants_none_on_cycle h fuel r x). Qed.

Section tree_facts.

Variable h : gmap ref NavigationNode.

Implicit Types (r c p x a b : ref) (l : list ref).

(** With unique parents, two nodes above the same node lie on one path. *)
Lemma ancestors_comparable a b x :
  unique_parent h →
  rtc (child h) a x → rtc (child h) b x →
  rtc (child h) a b ∨ rtc (child h) b a.
Proof.
  intros Huniq Ha. revert b. revert x Ha.
  apply (rtc_ind_r (λ x, ∀ b, rtc (child h) b x →
                          rtc (child h) a b ∨ rtc (child h) b a)).
  - intros b Hb. by right.
  - intros q p Haq Hqp IH b Hb.
    apply rtc_inv_r in Hb as [->|(q' & Hbq' & Hq'p)].
    + left. by eapply rtc_r.
    + assert (q' = q) as -> by (by eapply Huniq). by apply IH.
Qed.

(** The subtrees of two different children of a node share no node, unless
    a cycle passes through the node. *)
Lemma subtrees_disjoint r c1 c2 x :
  unique_parent h → ¬ tc (child h) r r →
  child h r c1 → child h r c2 → c1 ≠ c2 →
  rtc (child h) c1 x → rtc (child h) c2 x → False.
Proof.
  intros Huniq Hacyc H1 H2 Hne Hx1 Hx2.
  assert (∀ a b, child h r a → child h r b → a ≠ b →
                 rtc (child h) a b → False) as Hup.
  { intros a b Ha Hb Hab Hreach.
    apply rtc_inv_r in Hreach as [->|(q & Haq & Hqb)]; [done|].
    assert (q = r) as -> by (by eapply Huniq).
    apply Hacyc. eapply tc_rtc_r; [apply tc_once; exact Ha|exact Haq]. }
  destruct (ancestors_comparable c1 c2 x Huniq Hx1 Hx2); eauto.
Qed.

Lemma get_descendants_nodup_aux fuel r l :
  unique_parent h → children_nodup h →
  get_descendants fuel h r = Some l → NoDup l.
Proof.
  intros Huniq Hnodup. revert r l.
  induction fuel as [|fuel IH]; intros r l Hrun; [done|].
  assert (¬ tc (child h) r r) as Hacyc.
  { intros Hcyc.
    by rewrite (get_descendants_none_on_cycle h (S fuel) r r (rtc_refl _ _) Hcyc)
      in Hrun. }
  simpl in Hrun. destruct (h !! r) as [n|] eqn:Hn; [|done].
  apply descendants_loop_inv in Hrun as (ds & Hds & ->). simpl.
  assert (∀ c, c ∈ children n → child h r c) as Hchild.
  { intros c Hc. by exists n. }
  pose proof (Hnodup r n Hn) as Hcs. clear Hn.
  induction Hds as [|c d cs ds Hc Hds IHds]; [constructor|].
  apply NoDup_cons in Hcs as [Hfresh Hcs]. simpl.
  assert (∀ y, y ∈ concat (zip_with cons cs ds) →
               ∃ c', c' ∈ cs ∧ rtc (child h) c' y) as Hrest.
  { clear -Hds. intros y. induction Hds as [|c' d' cs ds Hc' _ IHds]; simpl.
    - by intros ?%elem_of_nil.
    - rewrite elem_of_cons, elem_of_app.
      intros [->|[Hy|Hy]].
      + exists c'. split; [left|apply rtc_refl].
      + exists c'. split; [left|].
        apply tc_rtc. by apply (get_descendants_members h fuel c' d').
      + destruct (IHds Hy) as (c'' & ? & ?). exists c''. split; [by right|done]. }
  assert (∀ y, rtc (child h) c y → y ∉ concat (zip_with cons cs ds)) as Hdisj.
  { intros y Hcy (c' & Hc' & Hc'y)%Hrest.
    apply (subtrees_disjoint r c c' y); auto.
    - apply Hchild. left.
    - apply Hchild. by right.
    - by intros ->. }
  apply NoDup_cons. split.
  - rewrite elem_of_app. intros [Hin|Hin].
    + apply (get_descendants_members h fuel c d c Hc) in Hin.
      by rewrite (get_descendants_none_on_cycle h fuel c c (rtc_refl _ _) Hin)
        in Hc.
    + by apply (Hdisj c (rtc_refl _ _)).
  - apply NoDup_app. split; [by eapply IH|]. split.
    + intros y Hy. apply Hdisj, tc_rtc.
      by apply (get_descendants_members h fuel c d).
    + apply IHds; [|done]. intros c' Hc'. apply Hchild. by right.
Qed.

Lemma tc_flip_iff (R S : relation ref) a b :
  (∀ u v, R u v ↔ S v u) → tc R a b ↔ tc S b a.
Proof.
  intros HRS.
  assert (∀ (R S : relation ref), (∀ u v, R u v → S v u) →
            ∀ a b, tc R a b → tc S b a) as Hone.
  { intros R' S' H' a' b' Hab.
    induction Hab as [u v Huv|u v w Huv _ IH].
    - apply tc_once. by apply H'.
    - eapply tc_r; [done|]. by apply H'. }
  split; apply Hone; intros u v; apply HRS.
Qed.

End tree_facts.

(** X5. In a store where every node is the child of at most one node and
    no [children] list repeats a node, the list that [get_descendants]
    returns names no node twice. *)
Theorem get_descendants_NoDup (h : gmap ref NavigationNode) (r : ref)
    (l : list ref) (fuel : nat) :
  unique_parent h → children_nodup h →
  get_descendants fuel h r = Some l → NoDup l.
Proof. intros. by eapply get_descendants_nodup_aux. Qed.

(** X6. In such a store, when every other node is reachable from [r]
    through [children] and no reference dangles, the list that
    [get_descendants] returns on [r] has one element per other node: its
    length is the number of nodes minus one. *)
Theorem get_descendants_count (h : gmap ref NavigationNode) (r : ref)
    (l : list ref) (fuel : nat) :
  unique_parent h → children_nodup h → children_closed h →
  (∀ x, is_Some (h !! x) → x ≠ r → tc (child h) r x) →
  get_descendants fuel h r = Some l →
  length l = size h - 1.
Proof.
  intros Huniq Hnodup Hclosed Hreach Hrun.
  pose proof (get_descendants_nodup_aux h fuel r l Huniq Hnodup Hrun) as Hl.
  assert (is_Some (h !! r)) as Hr.
  { destruct fuel; [done|]. simpl in Hrun. by destruct (h !! r). }
  assert (list_to_set l = dom h ∖ ({[r]} : gset ref)) as Hset.
  { apply set_eq. intros x.
    rewrite elem_of_list_to_set, elem_of_difference, elem_of_dom,
      not_elem_of_singleton, (get_descendants_members h fuel r l x Hrun).
    split.
    - intros Hx. split.
      + apply tc_child_step in Hx as (c & Hc & Hx).
        apply rtc_inv_r in Hx as [->|(y & _ & Hy)]; by eapply Hclosed.
      + intros ->.
        by rewrite (get_descendants_none_on_cycle h fuel r r (rtc_refl _ _) Hx)
          in Hrun.
    - intros [Hx Hne]. by apply Hreach. }
  rewrite <-(size_list_to_set (C := gset ref)) by done.
  rewrite Hset, size_difference, size_singleton, size_dom; [done|].
  by apply singleton_subseteq_l, elem_of_dom.
Qed.

(** X7. When [parent] back-references and [children] lists agree, a node
    [x] is among the descendants returned for [r] exactly when [r] is among
    the ancestors returned for [x]. *)
Theorem descendants_ancestors_dual (h : gmap ref NavigationNode) (r x : ref)
    (ld la : list ref) (fuel1 fuel2 : nat) :
  links_agree h →
  get_descendants fuel1 h r = Some ld →
  get_ancestors fuel2 h x = Some la →
  x ∈ ld ↔ r ∈ la.
Proof.
  intros Hagree Hd Ha.
  rewrite (get_descendants_members h fuel1 r ld x Hd).
  apply ancestors_loop_sound in Ha as (l & -> & Hl & _). simpl.
  rewrite (ancestor_chain_reach h x l r Hl).
  apply tc_flip_iff. apply Hagree.
Qed.

(** Lookup forms of the two link relations, for stores given by a table. *)
Lemma child_lookup (h : gmap ref NavigationNode) (p c : ref) :
  child h p c ↔ c ∈ from_option children [] (h !! p).
Proof.
  unfold child. destruct (h !! p) as [n|]; simpl.
  - split; [by intros (n' & [= <-] & ?)|by exists n].
  - split; [by intros (n' & [=] & _)|by intros ?%elem_of_nil].
Qed.

Lemma parent_of_lookup (h : gmap ref NavigationNode) (c p : ref) :
  parent_of h c p ↔ h !! c ≫= parent = Some p.
Proof.
  unfold parent_of. destruct (h !! c) as [n|]; simpl.
  - split; [by intros (n' & [= <-] & ?)|by exists n].
  - split; [by intros (n' & [=] & _)|done].
Qed.

Lemma example_store_unique_parent : unique_parent example_store.
Proof.
  assert (∀ p c, child example_store p c → p = match c with 3 => 1 | _ => 0 end)
    as Hfun.
  { apply (child_map_Forall _ (λ p c, p = match c with 3 => 1 | _ => 0 end)).
    by_table. }
  intros p1 p2 c H1 H2. by rewrite (Hfun p1 c H1), (Hfun p2 c H2).
Qed.

Lemma example_store_children_nodup : children_nodup example_store.
Proof.
  change (map_Forall (λ _ n, NoDup (children n)) example_store). by_table.
Qed.

Lemma example_store_links_agree : links_agree example_store.
Proof.
  intros p c. rewrite parent_of_lookup. split.
  - revert p c.
    apply (child_map_Forall _ (λ p c, example_store !! c ≫= parent = Some p)).
    by_table.
  - intros H. apply child_lookup. revert c p H.
    assert (∀ c p, parent_of example_store c p →
                   c ∈ from_option children [] (example_store !! p)) as Hall.
    { apply (parent_map_Forall _
               (λ c p, c ∈ from_option children [] (example_store !! p))).
      by_table. }
    intros c p H. apply Hall. by apply parent_of_lookup.
Qed.

Lemma example_store_reachable x :
  is_Some (example_store !! x) → x ≠ 0 → tc (child example_store) 0 x.
Proof.
  assert (map_Forall (λ x _, x ∈ [0; 1; 2; 3]) example_store) as Hdom
    by by_table.
  assert (child example_store 0 1) as H01 by (apply child_lookup; by_table).
  assert (child example_store 0 2) as H02 by (apply child_lookup; by_table).
  assert (child example_store 1 3) as H13 by (apply child_lookup; by_table).
  intros [n Hn] Hne. specialize (Hdom x n Hn). simpl in Hdom.
  repeat (apply elem_of_cons in Hdom as [->|Hdom]); try done.
  - by apply tc_once.
  - by apply tc_once.
  - eapply tc_l; [exact H01|by apply tc_once].
  - by apply elem_of_nil in Hdom.
Qed.

Lemma get_ancestors_cycle_witness :
  get_ancestors 4 cyclic_store 3 = None ∧
  get_ancestors 1000 cyclic_store 3 = None.
Proof.
  assert (parent_of cyclic_store 3 0) as H30 by (by apply parent_of_lookup).
  assert (parent_of cyclic_store 0 1) as H01 by (by apply parent_of_lookup).
  assert (parent_of cyclic_store 1 0) as H10 by (by apply parent_of_lookup).
  split; apply (get_ancestors_cycle cyclic_store 3 0);
    solve [by apply rtc_once | eapply tc_l; [exact H01|by apply tc_once]].
Defined.

Lemma get_descendants_cycle_witness :
  get_descendants 4 cyclic_store 2 = None ∧
  get_descendants 1000 cyclic_store 2 = None.
Proof.
  assert (child cyclic_store 2 0) as H20 by (apply child_lookup; by_table).
  assert (child cyclic_store 0 1) as H01 by (apply child_lookup; by_table).
  assert (child cyclic_store 1 0) as H10 by (apply child_lookup; by_table).
  split; apply (get_descendants_cycle cyclic_store 2 0);
    solve [by apply rtc_once | eapply tc_l; [exact H01|by apply tc_once]].
Defined.

Lemma get_descendants_NoDup_witness :
  get_descendants 3 example_store 0 = Some [1; 3; 2] ∧ NoDup [1; 3; 2].
Proof.
  assert (get_descendants 3 example_store 0 = Some [1; 3; 2]) as Hrun
    by (vm_compute; reflexivity).
  split; [exact Hrun|].
  apply (get_descendants_NoDup example_store 0 [1; 3; 2] 3).
  - exact example_store_unique_parent.
  - exact example_store_children_nodup.
  - exact Hrun.
Defined.

Lemma get_descendants_count_witness :
  get_descendants 3 example_store 0 = Some [1; 3; 2] ∧
  length [1; 3; 2] = size example_store - 1.
Proof.
  assert (get_descendants 3 example_store 0 = Some [1; 3; 2]) as Hrun
    by (vm_compute; reflexivity).
  split; [exact Hrun|].
  apply (get_descendants_count example_store 0 [1; 3; 2] 3).
  - exact example_store_unique_parent.
  - exact example_store_children_nodup.
  - exact example_store_children_closed.
  - exact example_store_reachable.
  - exact Hrun.
Defined.

Lemma descendants_ancestors_dual_witness :
  get_descendants 3 example_store 0 = Some [1; 3; 2] ∧
  get_ancestors 3 example_store 3 = Some [1; 0] ∧
  (3 ∈ [1; 3; 2] ↔ 0 ∈ [1; 0]).
Proof.
  assert (get_descendants 3 example_store 0 = Some [1; 3; 2]) as Hd
    by (vm_compute; reflexivity).
  assert (get_ancestors 3 example_store 3 = Some [1; 0]) as Ha
    by (vm_compute; reflexivity).
  split; [exact Hd|]. split; [exact Ha|].
  apply (descendants_ancestors_dual example_store 0 3 [1; 3; 2] [1; 0] 3 3).
  - exact example_store_links_agree.
  - exact Hd.
  - exact Ha.
Defined.

(** X8. A node that [__init__] has just built, wherever it is stored, has
    no descendants and no ancestors: both methods return the empty list at
    once. *)
Theorem fresh_node_isolated (h : gmap ref NavigationNode) (r : ref)
    (t u : string) (i pid : pyval) (pns : option string)
    (a : option (gmap string pyval)) (vis : bool) (fuel : nat) :
  h !! r = Some (NavigationNode_init t u i pid pns a vis) →
  get_descendants (S fuel) h r = Some [] ∧
  get_ancestors (S fuel) h r = Some [].
Proof.
  intros Hr. unfold get_ancestors. simpl. by rewrite Hr.
Qed.

Lemma fresh_node_isolated_witness :
  get_descendants 1 single_store 7 = Some [] ∧
  get_ancestors 1 single_store 7 = Some [].
Proof.
  apply (fresh_node_isolated single_store 7 "home" "/home/" (PyStr "home")
           PyNone None None true 0).
  vm_compute. reflexivity.
Defined.

(** X9. After [Menu.__init__] the namespace of the instance is a non-empty
    string whenever the class has a name: the class attribute [namespace]
    when that is truthy, the name of the class otherwise. *)
Theorem Menu_init_namespace (Request : Type) (cls : menu_class Request) :
  cls_name cls ≠ "" →
  ∃ ns, menu_namespace (Menu_init cls) = Some ns ∧ ns ≠ "" ∧
    (∀ ns0, cls_namespace cls = Some ns0 → ns0 ≠ "" → ns = ns0) ∧
    (cls_namespace cls = None ∨ cls_namespace cls = Some "" → ns = cls_name cls).
Proof.
  intros Hname. unfold Menu_init. destruct (cls_namespace cls) as [ns0|]; simpl.
  - destruct (String.eqb_spec ns0 "") as [->|Hne].
    + exists (cls_name cls). repeat split; try done. by intros ? [= <-].
    + exists ns0. repeat split; try done.
      * by intros ? [= <-].
      * intros [|[= ->]]; done.
  - exists (cls_name cls). repeat split; done.
Qed.

Lemma Menu_init_namespace_witness :
  (∃ ns, menu_namespace (Menu_init CMSMenu_class) = Some ns ∧ ns = "CMSMenu") ∧
  (∃ ns, menu_namespace (Menu_init named_class) = Some ns ∧ ns = "shop").
Proof.
  split.
  - destruct (Menu_init_namespace unit CMSMenu_class) as (ns & H1 & _ & _ & H2);
      [done|].
    exists ns. split; [done|]. apply H2. by left.
  - destruct (Menu_init_namespace unit named_class) as (ns & H1 & _ & H2 & _);
      [done|].
    exists ns. split; [done|]. by apply (H2 "shop").
Defined.

(** ** Further facts about menus/utils.py *)

(** X10. A view wrapped by [language_changer_decorator] runs the view on
    the request with the changer assigned and keeps the name and the
    docstring of the view; when the view itself does not assign
    [_language_changer], the request carries the decorator's changer after
    the call and its other attributes are as the view left them. *)
Theorem decorator_sets_changer (Response : Type)
    (language_changer : string → result string)
    (func : ViewFunction Response) (request : ChangerRequest)
    (args : list pyval) (kwargs : list (string * pyval)) :
  (∀ rq a k, _language_changer (view_body func rq a k).2
             = _language_changer rq) →
  let wrapped := language_changer_decorator language_changer func in
  __name__ wrapped = __name__ func ∧
  __doc__ wrapped = __doc__ func ∧
  (view_body wrapped request args kwargs).1
    = (view_body func (set_language_changer request language_changer)
         args kwargs).1 ∧
  _language_changer (view_body wrapped request args kwargs).2
    = Some language_changer ∧
  request_fields (view_body wrapped request args kwargs).2
    = request_fields
        (view_body func (set_language_changer request language_changer)
           args kwargs).2.
Proof.
  intros Hkeeps wrapped. repeat split. unfold wrapped. simpl.
  by rewrite Hkeeps.
Qed.

Lemma decorator_sets_changer_witness :
  (view_body (language_changer_decorator product_changer product_view)
     bare_request [] []).1 = Ok "product" ∧
  _language_changer
    (view_body (language_changer_decorator product_changer product_view)
       bare_request [] []).2 = Some product_changer.
Proof.
  destruct (decorator_sets_changer string product_changer product_view
              bare_request [] []) as (_ & _ & H1 & H2 & _); [done|].
  split; [exact H1|exact H2].
Defined.

(** X11. Of two stacked decorators the inner one decides: the outer
    wrapper assigns its changer first and the inner wrapper overwrites it
    before the view runs, so the doubly wrapped view behaves on every
    request as the view wrapped by the inner decorator alone. *)
Theorem decorator_stacked (Response : Type)
    (outer inner : string → result string) (func : ViewFunction Response)
    (request : ChangerRequest) (args : list pyval)
    (kwargs : list (string * pyval)) :
  view_body (language_changer_decorator outer
               (language_changer_decorator inner func)) request args kwargs
  = view_body (language_changer_decorator inner func) request args kwargs
  ∧ set_language_changer (set_language_changer request outer) inner
    = set_language_changer request inner.
Proof. split; reflexivity. Qed.

(** Facts about [s[n:]]. *)
Lemma string_app_assoc (a b c : string) : (a +:+ b) +:+ c = a +:+ (b +:+ c).
Proof.
  induction a as [|x a IH]; [done|].
  change (String x ((a +:+ b) +:+ c) = String x (a +:+ (b +:+ c))).
  by rewrite IH.
Qed.

Lemma slice_from_app (q rest : string) :
  slice_from (String.length q) (q +:+ rest) = rest.
Proof. induction q as [|x q IH]; [done|]. exact IH. Qed.

Lemma slice_from_split (n : nat) (s : string) :
  ∃ pre, s = pre +:+ slice_from n s ∧
         String.length pre = n `min` String.length s.
Proof.
  revert s. induction n as [|n IH]; intros s.
  - exists "". split; [done|]. simpl. lia.
  - destruct s as [|x s]; simpl.
    + exists "". done.
    + destruct (IH s) as (pre & Hs & Hlen). exists (String x pre). split.
      * change (String x s = String x (pre +:+ slice_from n s)). by f_equal.
      * simpl. lia.
Qed.

Lemma slice_from_beyond (n : nat) (s : string) :
  (String.length s ≤ n)%nat → slice_from n s = "".
Proof.
  revert s. induction n as [|n IH]; intros [|x s]; simpl; try done; try lia.
  intros H. apply IH. lia.
Qed.

Lemma string_length_app (a b : string) :
  String.length (a +:+ b) = (String.length a + String.length b)%nat.
Proof.
  induction a as [|x a IH]; [done|].
  change (S (String.length (a +:+ b))
          = S (String.length a + String.length b)).
  by rewrite IH.
Qed.

Section changer_facts.

Variable fw : Framework.
Variable request : Request.

Implicit Types (self : DefaultLanguageChanger) (lang : string).

(** Without a current page [get_page_path] is the language root, or ["/"]
    when [USE_I18N] is off. *)
Lemma get_page_path_no_page lang self :
  current_page request = None →
  outcome (get_page_path fw request lang self)
  = Ok (if USE_I18N fw then "/" +:+ lang +:+ "/" else "/").
Proof.
  intros Hpage. unfold_methods. rewrite Hpage. by destruct (USE_I18N fw).
Qed.

(** [__call__] leaves [self] as it was or as [app_path] leaves it. *)
Lemma call_final lang self :
  final (__call__ fw request lang self) = self ∨
  final (__call__ fw request lang self) = final (app_path fw request self).
Proof.
  unfold final at 1 2, __call__, language_from_request, resolve_view,
    toolbar_object, toolbar_strategy, view_strategy, static_stringifier.
  unfold try_except, bind, request_attr, framework_call, ret. simpl.
  destruct (resolve fw _ _) as [v|e0]; simpl;
    (destruct (toolbar request) as [[[o|]]|]; simpl;
     [destruct (obj_get_absolute_url o lang); simpl|..]);
    try (destruct (reserved_url_name (url_name v)); simpl);
    try (destruct (reverse fw lang _ _ _ _) as [u|[]]; simpl);
    try (by left).
  all: rewrite (get_page_path_pure fw request lang self self);
    destruct (outcome (get_page_path fw request lang self)); simpl;
    try (by left);
    unfold final; destruct (app_path fw request self) as [[[] ?] ?];
    by right.
Qed.

End changer_facts.

(** X12. When the request has a toolbar with an object, [__call__] never
    calls [reverse], whatever view the path matches and even when the
    object's own URL lookup raises; when that lookup succeeds, the call
    returns its URL at once: no page lookup is made and the cached
    [app_path] is neither read nor written. *)
Theorem toolbar_object_first (fw : Framework) (request : Request)
    (self : DefaultLanguageChanger) (lang : string) (o : ToolbarObject) :
  toolbar_obj request = Some o →
  reversals (events (__call__ fw request lang self)) = [] ∧
  ∀ u, obj_get_absolute_url o lang = Ok u →
    __call__ fw request lang self
    = (Ok u, self,
       [GetLanguageFromRequest; RequestAttr "path_info";
        Resolve (get_language_from_request fw request) (path_info request);
        RequestAttr "toolbar"; RequestAttr "toolbar"; RequestAttr "toolbar";
        ObjGetAbsoluteUrl lang]).
Proof.
  unfold toolbar_obj. intros Hobj.
  pose proof (get_page_path_no_reverse fw request lang self) as Hp.
  pose proof (app_path_no_reverse fw request self) as Ha.
  unfold events in *.
  unfold __call__, language_from_request, resolve_view,
    toolbar_object, toolbar_strategy, view_strategy, static_stringifier.
  unfold try_except, bind, request_attr, framework_call, ret. simpl.
  destruct (toolbar request) as [[[o'|]]|]; simpl in *; try done.
  injection Hobj as ->.
  destruct (resolve fw _ _) as [v|e0]; simpl;
    (destruct (obj_get_absolute_url o lang) as [u'|e']; simpl;
     [split; [done|by intros u [= ->]]|split; [|done]]).
  all: rewrite (get_page_path_pure fw request lang self self); unfold events;
    destruct (outcome (get_page_path fw request lang self)); simpl;
    [destruct (app_path fw request self) as [[[] ?] ?]; simpl in *|];
    unfold reversals in *; simpl;
    rewrite ?List.filter_app, ?Hp, ?Ha; reflexivity.
Qed.

Lemma toolbar_object_first_witness :
  reversals (events (__call__ blog_site toolbar_request "de"
                       DefaultLanguageChanger_init)) = [] ∧
  outcome (__call__ blog_site toolbar_request "de"
             DefaultLanguageChanger_init) = Ok "/de/post/1/".
Proof.
  destruct (toolbar_object_first blog_site toolbar_request
              DefaultLanguageChanger_init "de" edited_object eq_refl)
    as [H1 H2].
  split; [exact H1|]. by rewrite (H2 "/de/post/1/" eq_refl).
Defined.

(** X13. Once [_app_path] holds a string, no method changes the instance
    again: [app_path] returns that string, and [get_page_path] and
    [__call__] leave it in place. *)
Theorem app_path_cache_kept (fw : Framework) (request : Request)
    (self : DefaultLanguageChanger) (lang a : string) :
  _app_path self = Some a →
  app_path fw request self = (Ok a, self, []) ∧
  final (get_page_path fw request lang self) = self ∧
  final (__call__ fw request lang self) = self.
Proof.
  intros Hcache.
  pose proof (app_path_cached fw request self a Hcache) as Hrun.
  split; [done|]. split.
  - by rewrite (get_page_path_pure fw request lang self self).
  - destruct (call_final fw request lang self) as [->| ->]; [done|].
    by rewrite Hrun.
Qed.

Lemma app_path_cache_kept_witness :
  app_path blog_site blog_request {| _app_path := Some "team/" |}
  = (Ok "team/", {| _app_path := Some "team/" |}, []) ∧
  final (__call__ (site true false) about_request "de"
           {| _app_path := Some "team/" |})
  = {| _app_path := Some "team/" |}.
Proof.
  split.
  - apply (app_path_cache_kept blog_site blog_request
             {| _app_path := Some "team/" |} "de" "team/" eq_refl).
  - apply (app_path_cache_kept (site true false) about_request
             {| _app_path := Some "team/" |} "de" "team/" eq_refl).
Defined.

(** X14. On an instance without cached value, the string that [app_path]
    returns is a suffix of [path_info]: what is cut off in front is as
    long as the page path of the current language, or the whole of
    [path_info] when that is shorter, in which case the result is empty
    and no index error is raised. *)
Theorem app_path_suffix (fw : Framework) (request : Request)
    (self : DefaultLanguageChanger) (a : string) :
  _app_path self = None →
  outcome (app_path fw request self) = Ok a →
  ∃ q pre,
    outcome (get_page_path fw request (current_language fw request) self)
      = Ok q ∧
    path_info request = pre +:+ a ∧
    String.length pre = String.length q `min` String.length (path_info request) ∧
    ((String.length (path_info request) ≤ String.length q)%nat → a = "").
Proof.
  intros Hcache Ha.
  destruct (app_path_first_inv fw request self a Hcache Ha) as (q & Hq & ->).
  destruct (slice_from_split (String.length q) (path_info request))
    as (pre & Hpre & Hlen).
  exists q, pre. split; [done|]. split; [done|]. split; [done|].
  apply slice_from_beyond.
Qed.

Lemma app_path_suffix_witness :
  ∃ q pre,
    outcome (get_page_path (site true false) about_sub_request
               (current_language (site true false) about_sub_request)
               DefaultLanguageChanger_init) = Ok q ∧
    path_info about_sub_request = pre +:+ "team/" ∧
    String.length pre
      = String.length q `min` String.length (path_info about_sub_request) ∧
    ((String.length (path_info about_sub_request) ≤ String.length q)%nat
     → "team/" = "").
Proof.
  apply (app_path_suffix (site true false) about_sub_request
           DefaultLanguageChanger_init "team/"); reflexivity.
Defined.

(** X15. Asked for the language the request is in, a fresh changer whose
    earlier strategies yield nothing returns the request path itself,
    provided the path starts with the page path of that language. *)
Theorem call_same_language (fw : Framework) (request : Request)
    (self : DefaultLanguageChanger) (q : string) :
  strategy_outcome fw request (current_language fw request) = Ok None →
  _app_path self = None →
  outcome (get_page_path fw request (current_language fw request) self) = Ok q →
  String.prefix q (path_info request) = true →
  outcome (__call__ fw request (current_language fw request) self)
  = Ok (path_info request).
Proof.
  intros Hnone Hcache Hq Hprefix.
  destruct (app_path_first fw request self q Hcache Hq) as [tr Hrun].
  rewrite call_outcome, Hnone, Hq. unfold outcome at 1. rewrite Hrun. simpl.
  by rewrite slice_from_prefix.
Qed.

Lemma call_same_language_witness :
  outcome (__call__ (site true false) about_sub_request "en"
             DefaultLanguageChanger_init) = Ok "/en/about/team/".
Proof.
  apply (call_same_language (site true false) about_sub_request
           DefaultLanguageChanger_init "/en/about/"); reflexivity.
Defined.

(** X16. [get_language_from_request] and [hide_untranslated] being
    functions of the framework that return, as [Framework] has them, the
    exceptions that leave [__call__] come from three places only:
    [reverse] of the matched view raising something other than
    [NoReverseMatch] (and then there is no toolbar object); the exact
    lookup of the page URL, for the target or the current language, raising
    something other than [Title.DoesNotExist] and [NoReverseMatch]; or the
    lookup with fallback raising, where the language root does not replace
    it. *)
Theorem call_raises (fw : Framework) (request : Request)
    (self : DefaultLanguageChanger) (lang : string) (e : exn) :
  outcome (__call__ fw request lang self) = Raise e →
  (∃ v, toolbar_obj request = None ∧ matched_view fw request = Some v ∧
        reserved_url_name (url_name v) = false ∧
        reverse fw lang (view_name_of v) (args v) (kwargs v) (app_name v)
          = Raise e ∧
        e ≠ NoReverseMatch) ∨
  (∃ page l, current_page request = Some page ∧
     (l = lang ∨ l = current_language fw request) ∧
     ((page_get_absolute_url page l false l = Raise e ∧
       e ≠ DoesNotExist ∧ e ≠ NoReverseMatch) ∨
      (hide_untranslated fw l && USE_I18N fw = false ∧
       page_get_absolute_url page l true l = Raise e))).
Proof.
  rewrite call_outcome. unfold strategy_outcome.
  assert (∀ l, outcome (get_page_path fw request l self) = Raise e →
               (l = lang ∨ l = current_language fw request) →
               ∃ page l, current_page request = Some page ∧
                 (l = lang ∨ l = current_language fw request) ∧
                 ((page_get_absolute_url page l false l = Raise e ∧
                   e ≠ DoesNotExist ∧ e ≠ NoReverseMatch) ∨
                  (hide_untranslated fw l && USE_I18N fw = false ∧
                   page_get_absolute_url page l true l = Raise e))) as Hpage.
  { intros l (page & Hp & H)%get_page_path_raises Hl. by exists page, l. }
  assert (match outcome (get_page_path fw request lang self) with
          | Ok p =>
              match outcome (app_path fw request self) with
              | Ok a => Ok (p +:+ a)
              | Raise e0 => Raise e0
              end
          | Raise e0 => Raise e0
          end = Raise e →
          ∃ page l, current_page request = Some page ∧
            (l = lang ∨ l = current_language fw request) ∧
            ((page_get_absolute_url page l false l = Raise e ∧
              e ≠ DoesNotExist ∧ e ≠ NoReverseMatch) ∨
             (hide_untranslated fw l && USE_I18N fw = false ∧
              page_get_absolute_url page l true l = Raise e))) as Hlast.
  { destruct (outcome (get_page_path fw request lang self)) as [p|e1] eqn:Hp.
    - destruct (outcome (app_path fw request self)) as [a|e2] eqn:Ha; [done|].
      intros [= ->]. apply app_path_raises in Ha.
      apply (Hpage _ Ha). by right.
    - intros [= ->]. apply (Hpage _ Hp). by left. }
  destruct (toolbar_obj request) as [o|].
  { destruct (obj_get_absolute_url o lang); [done|]. intros H. right. auto. }
  destruct (matched_view fw request) as [v|]; [|intros H; right; auto].
  destruct (reserved_url_name (url_name v)) eqn:Hres; [intros H; right; auto|].
  destruct (reverse fw lang _ _ _ _) as [u|e'] eqn:Hrev; [done|].
  destruct e'; try (intros H; right; by auto);
    intros [= <-]; left; exists v; done.
Qed.

Lemma call_raises_witness :
  ∃ page l, current_page unrouted_request = Some page ∧
    (l = "de" ∨ l = current_language (site true false) unrouted_request) ∧
    page_get_absolute_url page l true l = Raise NoReverseMatch.
Proof.
  destruct (call_raises (site true false) unrouted_request
              DefaultLanguageChanger_init "de" NoReverseMatch eq_refl)
    as [(v & _ & _ & _ & _ & Hne)|(page & l & Hp & Hl & [(_ & _ & Hne)|[_ H]])];
    try done.
  by exists page, l.
Defined.

(** X17. For a request outside any page, with [USE_I18N] on and no earlier
    strategy yielding a URL, a fresh changer swaps the language prefix: a
    path ["/<current>/<rest>"] becomes ["/<lang>/<rest>"]. *)
Theorem call_swaps_prefix (fw : Framework) (request : Request)
    (self : DefaultLanguageChanger) (lang rest : string) :
  USE_I18N fw = true →
  current_page request = None →
  strategy_outcome fw request lang = Ok None →
  _app_path self = None →
  path_info request
    = ("/" +:+ get_language_from_request fw request +:+ "/") +:+ rest →
  outcome (__call__ fw request lang self) = Ok (("/" +:+ lang +:+ "/") +:+ rest).
Proof.
  intros Hi18n Hpage Hnone Hcache Hpath.
  pose proof (get_page_path_no_page fw request (current_language fw request)
                self Hpage) as Hq.
  unfold current_language in Hq at 2. rewrite Hi18n in Hq.
  destruct (app_path_first fw request self _ Hcache Hq) as [tr Hrun].
  rewrite call_outcome, Hnone, (get_page_path_no_page fw request lang self Hpage),
    Hi18n.
  unfold outcome at 1. rewrite Hrun. cbn [fst snd].
  by rewrite Hpath, slice_from_app.
Qed.

Lemma call_swaps_prefix_witness :
  outcome (__call__ (site true true) plain_request "de"
             DefaultLanguageChanger_init) = Ok "/de/search/".
Proof.
  apply (call_swaps_prefix (site true true) plain_request
           DefaultLanguageChanger_init "de" "search/"); reflexivity.
Defined.

(** X18. With [USE_I18N] off, for a request outside any page and no
    earlier strategy yielding a URL, a fresh changer returns the request
    path unchanged for every language, the path starting with a slash. *)
Theorem call_without_i18n (fw : Framework) (request : Request)
    (self : DefaultLanguageChanger) (lang rest : string) :
  USE_I18N fw = false →
  current_page request = None →
  strategy_outcome fw request lang = Ok None →
  _app_path self = None →
  path_info request = "/" +:+ rest →
  outcome (__call__ fw request lang self) = Ok (path_info request).
Proof.
  intros Hi18n Hpage Hnone Hcache Hpath.
  pose proof (get_page_path_no_page fw request (current_language fw request)
                self Hpage) as Hq.
  rewrite Hi18n in Hq.
  destruct (app_path_first fw request self _ Hcache Hq) as [tr Hrun].
  rewrite call_outcome, Hnone, (get_page_path_no_page fw request lang self Hpage),
    Hi18n.
  unfold outcome at 1. rewrite Hrun. simpl.
  by rewrite Hpath.
Qed.

Lemma call_without_i18n_witness :
  outcome (__call__ (site false true) plain_request "de"
             DefaultLanguageChanger_init) = Ok "/en/search/".
Proof.
  apply (call_without_i18n (site false true) plain_request
           DefaultLanguageChanger_init "de" "en/search/"); reflexivity.
Defined.
